(** * MyPython.cpp: the indentation-aware token scanner

    A shallow embedding of [src/MyPython.cpp] and the properties of its
    token stream.  The C++ program reads a file through a [std::fstream],
    classifies each lead character, lets the matching token object scan the
    rest of the lexeme and stores a pointer to that object in a list, which
    is printed once the whole file has been read.

    Conventions of the embedding:
    - [int] values holding characters are [Z]: a character read from the
      stream is its unsigned code (0..255), end of input is [-1];
    - a [std::string] is a [string]; storing an [int] in it keeps its low
      eight bits ([char_of_int]); a string that holds no more than the file
      it is read from always has room to grow, so its appends are written
      without a bound, and the bound is written out where a loop appends
      past the end of the input ([constant.loop_within]);
    - every [while (true)] loop of the source is a [Fixpoint] on a fuel
      argument that answers [OutOfFuel] when the loop has not yet left;
    - token objects live in a heap (a list indexed by allocation order) and
      the token list holds pointers into it, since the driver can hand the
      same object to [parse_token] twice. *)

From Stdlib Require Import ZArith Ascii String Lia Bool.
From Stdlib Require Import DecimalString DecimalZ DecimalPos.
From stdpp Require Import base list strings.

Open Scope Z_scope.

(** ** Characters *)

(** [std::char_traits<char>::to_int_type]: the code of a character read
    from the stream. *)
Definition chr (c : ascii) : Z := Z.of_nat (nat_of_ascii c).

(** Conversion of an [int] to [char] when it is stored in a [std::string]. *)
Definition char_of_int (c : Z) : ascii := ascii_of_nat (Z.to_nat (c mod 256)).

(** [traits::eof()], the value [get] and [peek] answer at end of input. *)
Definition EOF : Z := -1.

Definition LF : Z := 10.         (* 0x0A *)
Definition dquote : Z := 34.     (* the double quote *)
Definition squote : Z := 39.     (* the single quote *)
Definition backslash : Z := 92.

(** The [<cctype>] classifiers in the default "C" locale (the program never
    changes it).  Each one is false at [EOF] and above 127. *)
Definition isdigit (c : Z) : bool := (48 <=? c) && (c <=? 57).

Definition isalpha (c : Z) : bool :=
  ((65 <=? c) && (c <=? 90)) || ((97 <=? c) && (c <=? 122)).

Definition isxdigit (c : Z) : bool :=
  isdigit c || ((65 <=? c) && (c <=? 70)) || ((97 <=? c) && (c <=? 102)).

Definition isspace (c : Z) : bool :=
  (c =? 32) || ((9 <=? c) && (c <=? 13)).

Definition ispunct (c : Z) : bool :=
  ((33 <=? c) && (c <=? 47)) || ((58 <=? c) && (c <=? 64)) ||
  ((91 <=? c) && (c <=? 96)) || ((123 <=? c) && (c <=? 126)).

(** [s = c] and [s += c] on a [std::string]. *)
Definition assign_char (c : Z) : string := String (char_of_int c) EmptyString.

Definition append_char (s : string) (c : Z) : string :=
  (s +:+ String (char_of_int c) EmptyString)%string.

(** ** The character source

    [std::fstream] as the program uses it: the characters not yet
    extracted and the sticky [eofbit].  [get] and [peek] answer [EOF] once
    the bit is set; reaching the end of the buffer sets it, also in [peek]. *)
Record fstream : Type := mkStream { chars : list ascii; eofbit : bool }.

Definition get (s : fstream) : Z * fstream :=
  if eofbit s then (EOF, s)
  else match chars s with
       | [] => (EOF, mkStream [] true)
       | c :: rest => (chr c, mkStream rest false)
       end.

Definition peek (s : fstream) : Z * fstream :=
  if eofbit s then (EOF, s)
  else match chars s with
       | [] => (EOF, mkStream [] true)
       | c :: _ => (chr c, s)
       end.

(** A stream freshly opened on the contents of a file. *)
Definition open (contents : list ascii) : fstream := mkStream contents false.

(** The characters of a string, to write file contents down. *)
Definition text (s : string) : list ascii := list_ascii_of_string s.

(** ** Results of running a piece of the scanner *)

Inductive res (A : Type) : Type :=
| Ret (a : A)            (* the code returned normally *)
| Exit (msg : string)    (* [exit(0)] after printing [msg] *)
| Undef                  (* a pointer that refers to no object was used *)
| OutOfFuel.             (* the loop did not leave within the fuel given *)

Arguments Ret {A} a.
Arguments Exit {A} msg.
Arguments Undef {A}.
Arguments OutOfFuel {A}.

Definition bind {A B : Type} (m : res A) (k : A -> res B) : res B :=
  match m with
  | Ret a => k a
  | Exit msg => Exit msg
  | Undef => Undef
  | OutOfFuel => OutOfFuel
  end.

(** ** Strings that run out of room

    A [std::string] holds [max_size()] characters at most, and fewer when
    memory gives out before: [s += c] on a string that already holds
    [capacity] characters throws ([std::length_error] or [std::bad_alloc]).
    No function of the program catches an exception, so the throw ends the
    run. *)
Inductive grown (A : Type) : Type :=
| Returned (a : A)     (* the code returned normally *)
| Thrown               (* an append threw and the run was ended *)
| Scanning.            (* the loop did not leave within the fuel given *)

Arguments Returned {A} a.
Arguments Thrown {A}.
Arguments Scanning {A}.

(** [s += c] on a string with room for [capacity] characters: [None] when
    it throws. *)
Definition append_within (capacity : nat) (s : string) (c : Z)
  : option string :=
  if (String.length s <? capacity)%nat then Some (append_char s c) else None.

(** The rest of the code after an append that may throw. *)
Definition growing {A B : Type} (m : option A) (k : A -> grown B) : grown B :=
  match m with
  | Some a => k a
  | None => Thrown
  end.

(** ** Tokens *)

(** The classes derived from [base_token], each with its data members. *)
Inductive base_token : Type :=
| invalid_token (invalid_character : Z)
| symbol_token (symbol : string)
| integer_token (integer_string : string)
| literal_token (literal_string : string)
| constant_token (constant_string : string)
| punctuation_token (punctuation_string : string)
| whitespace_token
| eol_token
| indent_token (indent_level : Z)
| dedent_token (dedent_level : Z)
| eof_token.

(** The enumeration [base_token::type_of_token] and the value each
    constructor passes to [base_token]. *)
Inductive type_of_token : Type :=
| t_invalid_token | t_symbol | t_integer | t_literal | t_constant
| t_punctuation | t_whitespace | t_eol | t_indent | t_dedent | t_eof.

Definition token_type (t : base_token) : type_of_token :=
  match t with
  | invalid_token _ => t_invalid_token
  | symbol_token _ => t_symbol
  | integer_token _ => t_integer
  | literal_token _ => t_literal
  | constant_token _ => t_constant
  | punctuation_token _ => t_punctuation
  | whitespace_token => t_whitespace
  | eol_token => t_eol
  | indent_token _ => t_indent
  | dedent_token _ => t_dedent
  | eof_token => t_eof
  end.

(** What a [parse_token] leaves behind: the object's data, the character
    it returns and the stream. *)
Definition scanned (A : Type) : Type := (A * Z * fstream)%type.

Module symbol.

Fixpoint loop (fuel : nat) (stream : fstream) (symbol : string)
  : res (scanned string) :=
  match fuel with
  | O => OutOfFuel
  | S fuel' =>
    let '(input_char, stream) := get stream in
    if isalpha input_char || isdigit input_char || (input_char =? chr "_")
    then loop fuel' stream (append_char symbol input_char)
    else Ret (symbol, input_char, stream)
  end.

Definition parse_token (fuel : nat) (stream : fstream) (input_char : Z)
  : res (scanned string) :=
  loop fuel stream (assign_char input_char).

End symbol.

Module integer.

Fixpoint hex_loop (fuel : nat) (stream : fstream) (integer_string : string)
  : res (scanned string) :=
  match fuel with
  | O => OutOfFuel
  | S fuel' =>
    let '(input_char, stream) := get stream in
    if isxdigit input_char
    then hex_loop fuel' stream (append_char integer_string input_char)
    else Ret (integer_string, input_char, stream)
  end.

Fixpoint dec_loop (fuel : nat) (stream : fstream) (integer_string : string)
  : res (scanned string) :=
  match fuel with
  | O => OutOfFuel
  | S fuel' =>
    let '(input_char, stream) := get stream in
    if isdigit input_char
    then dec_loop fuel' stream (append_char integer_string input_char)
    else Ret (integer_string, input_char, stream)
  end.

Definition parse_token (fuel : nat) (stream : fstream) (input_char : Z)
  : res (scanned string) :=
  let integer_string := assign_char input_char in
  if input_char =? chr "0" then
    let '(input_char, stream) := peek stream in
    if (input_char =? chr "X") || (input_char =? chr "x") then
      let integer_string := append_char integer_string input_char in
      let '(_, stream) := get stream in
      hex_loop fuel stream integer_string
    else dec_loop fuel stream integer_string
  else dec_loop fuel stream integer_string.

End integer.

Definition msg_EOL : string :=
  "error: EOL encountered before closing literal quotes"%string.

Definition msg_EOF : string :=
  "error: EOF encountered before closing literal quotes"%string.

Module literal.

Fixpoint loop (fuel : nat) (stream : fstream) (literal_string : string)
  : res (scanned string) :=
  match fuel with
  | O => OutOfFuel
  | S fuel' =>
    let '(input_char, stream) := get stream in
    if input_char =? backslash then
      let '(input_char, stream) := peek stream in
      if (input_char =? dquote) || (input_char =? backslash) then
        let literal_string := append_char literal_string backslash in
        let '(input_char, stream) := get stream in
        loop fuel' stream (append_char literal_string input_char)
      else if input_char =? LF then Exit msg_EOL
      else if input_char =? EOF then Exit msg_EOF
      else loop fuel' stream (append_char literal_string input_char)
    else if negb (input_char =? dquote) && negb (input_char =? EOF) then
      loop fuel' stream (append_char literal_string input_char)
    else if input_char =? EOF then Exit msg_EOF
    else
      let '(input_char, stream) := get stream in
      Ret (literal_string, input_char, stream)
  end.

(** [literal_string.clear()] and the loop; the lead character is unused. *)
Definition parse_token (fuel : nat) (stream : fstream) (input_char : Z)
  : res (scanned string) :=
  loop fuel stream EmptyString.

End literal.

Module constant.

Fixpoint loop (fuel : nat) (stream : fstream) (constant_string : string)
  : res (scanned string) :=
  match fuel with
  | O => OutOfFuel
  | S fuel' =>
    let '(input_char, stream) := get stream in
    if input_char =? backslash then
      let '(input_char, stream) := peek stream in
      if (input_char =? squote) || (input_char =? backslash) then
        let constant_string := append_char constant_string backslash in
        let '(input_char, stream) := get stream in
        loop fuel' stream (append_char constant_string input_char)
      else loop fuel' stream (append_char constant_string input_char)
    else if negb (input_char =? squote) then
      loop fuel' stream (append_char constant_string input_char)
    else
      let '(input_char, stream) := get stream in
      Ret (constant_string, input_char, stream)
  end.

Definition parse_token (fuel : nat) (stream : fstream) (input_char : Z)
  : res (scanned string) :=
  loop fuel stream EmptyString.

(** The same loop with the room of [constant_string] written out: each
    [constant_string += ...] may throw. *)
Fixpoint loop_within (capacity fuel : nat) (stream : fstream)
    (constant_string : string) : grown (scanned string) :=
  match fuel with
  | O => Scanning
  | S fuel' =>
    let '(input_char, stream) := get stream in
    if input_char =? backslash then
      let '(input_char, stream) := peek stream in
      if (input_char =? squote) || (input_char =? backslash) then
        growing (append_within capacity constant_string backslash)
          (fun constant_string =>
             let '(input_char, stream) := get stream in
             growing (append_within capacity constant_string input_char)
               (fun constant_string =>
                  loop_within capacity fuel' stream constant_string))
      else
        growing (append_within capacity constant_string input_char)
          (fun constant_string =>
             loop_within capacity fuel' stream constant_string)
    else if negb (input_char =? squote) then
      growing (append_within capacity constant_string input_char)
        (fun constant_string =>
           loop_within capacity fuel' stream constant_string)
    else
      let '(input_char, stream) := get stream in
      Returned (constant_string, input_char, stream)
  end.

Definition parse_token_within (capacity fuel : nat) (stream : fstream)
    (input_char : Z) : grown (scanned string) :=
  loop_within capacity fuel stream EmptyString.

End constant.

Module punctuation.

(** [input_char = stream.get(); punctuation_string += input_char;] *)
Definition take (stream : fstream) (punctuation_string : string)
  : Z * fstream * string :=
  let '(input_char, stream) := get stream in
  (input_char, stream, append_char punctuation_string input_char).

(** [input_char = stream.peek(); if (test) { take }], the shape of every
    arm of the switch. *)
Definition extend (test : Z -> bool) (stream : fstream)
    (punctuation_string : string) : Z * fstream * string :=
  let '(input_char, stream) := peek stream in
  if test input_char then take stream punctuation_string
  else (input_char, stream, punctuation_string).

Definition one (c : ascii) (input_char : Z) : bool := input_char =? chr c.

Definition either (c1 c2 : ascii) (input_char : Z) : bool :=
  (input_char =? chr c1) || (input_char =? chr c2).

(** The [switch (input_char)], up to its closing brace. *)
Definition switch (stream : fstream) (input_char : Z)
    (punctuation_string : string) : fstream * string :=
  let simple (test : Z -> bool) :=
    let '(_, stream, s) := extend test stream punctuation_string in
    (stream, s) in
  let shift (lead : ascii) :=
    (* the arms of '<' and '>', which differ in the lead only *)
    let '(c, stream, s) := extend (one "=") stream punctuation_string in
    if c =? chr "=" then (stream, s)
    else if c =? chr lead then
      let '(_, stream, s) := take stream s in
      let '(_, stream, s) := extend (one "=") stream s in
      (stream, s)
    else (stream, s) in
  if input_char =? chr "!" then simple (one "=")
  else if input_char =? chr "#" then simple (one "#")
  else if input_char =? chr "%" then simple (one "=")
  else if input_char =? chr "&" then simple (either "&" "=")
  else if input_char =? chr "*" then simple (one "=")
  else if input_char =? chr "+" then simple (either "+" "=")
  else if input_char =? chr "-" then
    let '(c, stream, s) := extend (either "-" "=") stream punctuation_string in
    if c =? chr ">" then
      let '(_, stream, s) := take stream s in
      let '(_, stream, s) := extend (one "*") stream s in
      (stream, s)
    else (stream, s)
  else if input_char =? chr "." then
    let '(c, stream, s) := extend (one ".") stream punctuation_string in
    if c =? chr "." then
      let '(_, stream, s) := extend (one ".") stream s in
      (stream, s)
    else (stream, s)
  else if input_char =? chr "/" then simple (one "=")
  else if input_char =? chr ":" then simple (one ":")
  else if input_char =? chr "<" then shift "<"%char
  else if input_char =? chr "=" then simple (one "=")
  else if input_char =? chr ">" then shift ">"%char
  else if input_char =? chr "|" then simple (either "|" "=")
  else (stream, punctuation_string).

Definition parse_token (stream : fstream) (input_char : Z)
  : scanned string :=
  let '(stream, punctuation_string) :=
    switch stream input_char (assign_char input_char) in
  let '(input_char, stream) := get stream in
  (punctuation_string, input_char, stream).

End punctuation.

Module whitespace.

Fixpoint loop (fuel : nat) (stream : fstream) : res (Z * fstream) :=
  match fuel with
  | O => OutOfFuel
  | S fuel' =>
    let '(input_char, stream) := get stream in
    if (input_char =? chr " ") || (input_char =? 9) ||
       (input_char =? 11) || (input_char =? 13)
    then loop fuel' stream
    else Ret (input_char, stream)
  end.

End whitespace.

(** The virtual call [token->parse_token(stream, input_char)] on the object
    [t]: the object afterwards, the returned character and the stream.
    [eol_token], [indent_token] and [dedent_token] read one character,
    [eof_token] reads nothing and returns 0. *)
Definition parse_token (fuel : nat) (t : base_token) (stream : fstream)
    (input_char : Z) : res (scanned base_token) :=
  match t with
  | invalid_token _ =>
    let '(c, stream) := get stream in Ret (invalid_token input_char, c, stream)
  | symbol_token _ =>
    bind (symbol.parse_token fuel stream input_char)
      (fun '(s, c, stream) => Ret (symbol_token s, c, stream))
  | integer_token _ =>
    bind (integer.parse_token fuel stream input_char)
      (fun '(s, c, stream) => Ret (integer_token s, c, stream))
  | literal_token _ =>
    bind (literal.parse_token fuel stream input_char)
      (fun '(s, c, stream) => Ret (literal_token s, c, stream))
  | constant_token _ =>
    bind (constant.parse_token fuel stream input_char)
      (fun '(s, c, stream) => Ret (constant_token s, c, stream))
  | punctuation_token _ =>
    let '(s, c, stream) := punctuation.parse_token stream input_char in
    Ret (punctuation_token s, c, stream)
  | whitespace_token =>
    bind (whitespace.loop fuel stream)
      (fun '(c, stream) => Ret (whitespace_token, c, stream))
  | eol_token | indent_token _ | dedent_token _ =>
    let '(c, stream) := get stream in Ret (t, c, stream)
  | eof_token => Ret (eof_token, 0, stream)
  end.

(** ** The driver, [token_parser::parse_tokens] *)

(** The members of [token_parser] (the stream, the token list and the
    objects its pointers refer to) and the locals of [parse_tokens].  The
    local [token] is a pointer: [None] is [NULL], [Some p] the address [p]. *)
Record frame : Type := mkFrame {
  source_stream : fstream;
  heap : list base_token;
  token_list : list nat;
  token : option nat;
  current_indent : Z;
  input_char : Z }.

Definition set_stream (stream : fstream) (f : frame) : frame :=
  mkFrame stream (heap f) (token_list f) (token f) (current_indent f)
    (input_char f).

Definition set_indent (n : Z) (f : frame) : frame :=
  mkFrame (source_stream f) (heap f) (token_list f) (token f) n (input_char f).

(** [token = new(nothrow) T]; allocation is taken to succeed. *)
Definition new (t : base_token) (f : frame) : frame :=
  mkFrame (source_stream f) (heap f ++ [t]) (token_list f)
    (Some (length (heap f))) (current_indent f) (input_char f).

(** The loop that drops a line comment: it starts from a peeked character
    and extracts characters until it has extracted a line feed or the stream
    is at its end. *)
Fixpoint comment_loop (fuel : nat) (peek_character : Z) (stream : fstream)
  : res fstream :=
  match fuel with
  | O => OutOfFuel
  | S fuel' =>
    if negb (peek_character =? LF) && negb (eofbit stream) then
      let '(peek_character, stream) := get stream in
      comment_loop fuel' peek_character stream
    else Ret stream
  end.

(** The loop that measures the indentation after a line feed, entered once
    a first white character [g] has been extracted.  The counter [spaces]
    is an [int] that grows by one per character extracted: it stays below
    the length of the file, so its wrap-around is not written out. *)
Fixpoint indent_loop (fuel : nat) (g : Z) (spaces : Z) (stream : fstream)
  : res (Z * fstream) :=
  match fuel with
  | O => OutOfFuel
  | S fuel' =>
    if negb (g =? LF) && negb (eofbit stream) then
      let '(p, stream) := peek stream in
      if isspace p then
        let '(g, stream) := get stream in
        indent_loop fuel' g (spaces + 1) stream
      else Ret (spaces, stream)
    else Ret (spaces, stream)
  end.

Definition measure_indent (fuel : nat) (stream : fstream)
  : res (Z * fstream) :=
  let spaces := 0 in
  let '(p, stream) := peek stream in
  if isspace p then
    let '(g, stream) := get stream in
    indent_loop fuel g spaces stream
  else Ret (spaces, stream).

(** The single-shot [do { ... } while (false)]: the first test that holds
    allocates the token; when none holds, [token] keeps its old value. *)
Definition classify (fuel : nat) (f : frame) : res frame :=
  let c := input_char f in
  if c =? chr "#" then
    let '(peek_character, stream) := peek (source_stream f) in
    bind (comment_loop fuel peek_character stream)
      (fun stream => Ret (new eol_token (set_stream stream f)))
  else if isalpha c || (c =? chr "_") then
    Ret (new (symbol_token EmptyString) f)
  else if c =? LF then
    bind (measure_indent fuel (source_stream f))
      (fun '(spaces, stream) =>
         let f := set_stream stream f in
         if current_indent f <? spaces then
           Ret (new (indent_token spaces) (set_indent spaces f))
         else if spaces <? current_indent f then
           Ret (new (dedent_token spaces) (set_indent spaces f))
         else Ret (new eol_token f))
  else if isspace c then Ret (new whitespace_token f)
  else if c =? dquote then Ret (new (literal_token EmptyString) f)
  else if c =? squote then Ret (new (constant_token EmptyString) f)
  else if isdigit c then Ret (new (integer_token EmptyString) f)
  else if ispunct c then Ret (new (punctuation_token EmptyString) f)
  else Ret f.

(** One turn of the inner loop.  [inr f] stands for [return false]. *)
Definition iteration (fuel : nat) (f : frame) : res (frame + frame) :=
  bind (classify fuel f) (fun f =>
    match token f with
    | None => Ret (inr f)
    | Some p =>
      match heap f !! p with
      | None => Undef
      | Some obj =>
        bind (parse_token fuel obj (source_stream f) (input_char f))
          (fun '(obj, c, stream) =>
             Ret (inl (mkFrame stream (<[p := obj]> (heap f))
                         (token_list f ++ [p]) (token f)
                         (current_indent f) c)))
      end
    end).

Fixpoint inner_loop (fuel : nat) (f : frame) : res (frame + frame) :=
  match fuel with
  | O => OutOfFuel
  | S fuel' =>
    if eofbit (source_stream f) then Ret (inl f)
    else
      bind (iteration fuel' f) (fun r =>
        match r with
        | inl f => inner_loop fuel' f
        | inr f => Ret (inr f)
        end)
  end.

(** The end of [parse_tokens]: the EOF token is allocated and appended. *)
Definition push_eof (f : frame) : frame :=
  let p := length (heap f) in
  mkFrame (source_stream f) (heap f ++ [eof_token]) (token_list f ++ [p])
    (Some p) (current_indent f) (input_char f).

Fixpoint outer_loop (fuel : nat) (f : frame) : res (bool * frame) :=
  match fuel with
  | O => OutOfFuel
  | S fuel' =>
    if eofbit (source_stream f) then Ret (true, push_eof f)
    else
      let '(c, stream) := get (source_stream f) in
      let f := mkFrame stream (heap f) (token_list f) (token f)
                 (current_indent f) c in
      bind (inner_loop fuel' f) (fun r =>
        match r with
        | inl f => outer_loop fuel' f
        | inr f => Ret (false, f)
        end)
  end.

(** [parse_tokens] on a parser just constructed over [stream].  The local
    [token] is declared without an initialiser: [garbage] is the value it
    happens to hold. *)
Definition parse_tokens (fuel : nat) (garbage : option nat) (stream : fstream)
  : res (bool * frame) :=
  outer_loop fuel (mkFrame stream [] [] garbage 0 0).

(** [print_tokens] walks the list and prints each object it points to; the
    stream of tokens is the list of these objects. *)
Definition token_stream (f : frame) : option (list base_token) :=
  mapM (fun p => heap f !! p) (token_list f).

(** A whole run on the contents of a file: the value [parse_tokens]
    returns and the tokens [print_tokens] then shows. *)
Definition scan (fuel : nat) (garbage : option nat) (contents : list ascii)
  : res (bool * list base_token) :=
  bind (parse_tokens fuel garbage (open contents)) (fun '(ok, f) =>
    match token_stream f with
    | Some ts => Ret (ok, ts)
    | None => Undef
    end).

(** ** Vocabulary of the statements *)

(** The tests of [classify], in its order; a character that passes none of
    them is given no token class. *)
Definition classified (c : Z) : bool :=
  (c =? chr "#") || isalpha c || (c =? chr "_") || (c =? LF) || isspace c ||
  (c =? dquote) || (c =? squote) || isdigit c || ispunct c.

(** Whether the text after an opening single quote holds a closing one: a
    backslash escapes the quote or backslash that follows it, the first
    quote that is not escaped closes the literal.  [esc] tells that the
    character before was an escaping backslash. *)
Fixpoint closes (quote : ascii) (esc : bool) (l : list ascii) : bool :=
  match l with
  | [] => false
  | c :: l' =>
    if esc then closes quote false l'
    else if Ascii.eqb c "092" then closes quote true l'
    else if Ascii.eqb c quote then true
    else closes quote false l'
  end.

(** The sequences of the punctuation table that the driver hands to the
    punctuation scanner: every extension listed for a lead but the one of
    the number sign. *)
Definition munch_table : list string :=
  ["!="; "%="; "&&"; "&="; "*="; "++"; "+="; "--"; "-="; "->"; "->*";
   ".."; "..."; "/="; "::"; "<="; "<<"; "<<="; "=="; ">="; ">>"; ">>=";
   "||"; "|="]%string.

(** Those among them that no other sequence of the table extends. *)
Definition longest_table : list string :=
  ["!="; "%="; "&&"; "&="; "*="; "++"; "+="; "--"; "-="; "->*";
   "..."; "/="; "::"; "<="; "<<="; "=="; ">="; ">>="; "||"; "|="]%string.

(** Lead character and tail of a sequence. *)
Definition lead_of (s : string) : Z :=
  match s with
  | EmptyString => EOF
  | String c _ => chr c
  end.

Definition tail_of (s : string) : list ascii :=
  match s with
  | EmptyString => []
  | String _ s' => text s'
  end.

(** White characters other than the line feed. *)
Definition blank (c : ascii) : bool := isspace (chr c) && negb (chr c =? LF).

(** *** Files used in the statements *)

(** A string literal with a line feed between [a] and [b]. *)
Definition literal_over_two_lines : list ascii :=
  ["034"; "a"; "010"; "b"; "034"]%char.

(** [a], then a line that starts with two spaces and holds [b]. *)
Definition indented_second_line : list ascii :=
  ["a"; "010"; " "; " "; "b"]%char.

(** [a] followed by the control character of code 1. *)
Definition symbol_then_control : list ascii := ["a"; "001"]%char.

(** The string literal made of [a], a backslash, [n] and [b]. *)
Definition literal_with_escape : list ascii :=
  ["034"; "a"; "092"; "n"; "b"; "034"]%char.

(** A file whose only character is the control character of code 1. *)
Definition control_only : list ascii := ["001"]%char.

(** A number sign directly followed by a line feed, then an indented [x]. *)
Definition empty_comment_then_indent : list ascii :=
  ["#"; "010"; " "; " "; "x"]%char.

(** The tokens the inner loop allocates: those of the classes that
    [classify] instantiates. *)
Definition scanned_class (t : base_token) : Prop :=
  token_type t <> t_eof /\ token_type t <> t_invalid_token.

(** The invariant of the inner loop: the heap holds tokens of those classes
    only and every pointer of the list refers to an object. *)
Definition sound (f : frame) : Prop :=
  Forall scanned_class (heap f) /\
  Forall (fun p => (p < length (heap f))%nat) (token_list f).

(** The frame [f] as it is when one EOL token was allocated and appended
    before everything else: every object sits one address higher. *)
Definition shift (f : frame) : frame :=
  mkFrame (source_stream f) (eol_token :: heap f)
    (0%nat :: map S (token_list f)) (option_map S (token f))
    (current_indent f) (input_char f).

Definition res_map {A B : Type} (g : A -> B) (r : res A) : res B :=
  bind r (fun a => Ret (g a)).

Definition shift_either (r : frame + frame) : frame + frame :=
  match r with
  | inl f => inl (shift f)
  | inr f => inr (shift f)
  end.

(** A result other than running out of fuel. *)
Definition settled {A : Type} (r : res A) : Prop := r <> OutOfFuel.

(** *** Tactics *)

(** The shape shared by the loops: out of fuel at 0, settled results of
    the body are kept. *)
Ltac loop_mono n :=
  let IH := fresh "IH" in
  let m := fresh "m" in
  induction n as [|n IH]; intros m; intros;
  [ match goal with H : settled _ |- _ => exfalso; apply H; reflexivity end
  | destruct m as [|m]; [lia|]; simpl in *;
    match goal with H : settled _ |- _ => revert H end;
    repeat match goal with
           | |- context [let '(_, _) := ?x in _] => destruct x
           | |- context [if ?b then _ else _] => destruct b
           end;
    intros; try reflexivity; apply IH; solve [assumption | lia] ].

(** Turns the character constants of a goal into their codes. *)
Ltac char_codes :=
  repeat match goal with
         | |- context [chr (Ascii ?a ?b ?c ?d ?e ?f ?g ?h)] =>
           let v := eval vm_compute in (chr (Ascii a b c d e f g h)) in
           change (chr (Ascii a b c d e f g h)) with v
         end.

(** Decides the comparisons of a goal and leaves the arithmetic to [lia]. *)
Ltac ztests :=
  repeat match goal with
         | |- context [(?a <=? ?b)] => destruct (Z.leb_spec a b)
         | |- context [(?a =? ?b)] => destruct (Z.eqb_spec a b)
         end;
  simpl; try reflexivity; try lia.

(** *** Runs of characters

    The characters each loop goes on extracting, and the texts of string
    and char literals that hold no closing quote before their end. *)

Definition ident_char (c : ascii) : bool :=
  isalpha (chr c) || isdigit (chr c) || (chr c =? chr "_").

Definition digit_char (c : ascii) : bool := isdigit (chr c).

Definition xdigit_char (c : ascii) : bool := isxdigit (chr c).

Definition space_char (c : ascii) : bool :=
  (chr c =? chr " ") || (chr c =? 9) || (chr c =? 11) || (chr c =? 13).

(** The text [rest] is empty or starts with a character outside [p]. *)
Definition stops (p : ascii -> bool) (rest : list ascii) : Prop :=
  match rest with
  | [] => True
  | c :: _ => p c = false
  end.

(** The string [s] followed by the characters [l]. *)
Definition add_text (s : string) (l : list ascii) : string :=
  (s +:+ string_of_list_ascii l)%string.

(** A literal body in which every backslash is followed by the quote or by
    a backslash, and the quote stands only after a backslash. *)
Fixpoint verbatim (quote : ascii) (l : list ascii) : bool :=
  match l with
  | [] => true
  | c :: l' =>
    if Ascii.eqb c "092" then
      match l' with
      | [] => false
      | d :: l'' =>
        (Ascii.eqb d quote || Ascii.eqb d "092") && verbatim quote l''
      end
    else negb (Ascii.eqb c quote) && verbatim quote l'
  end.

(** The integer scanner takes the hexadecimal path. *)
Definition hex_prefix (input_char : Z) (l : list ascii) : bool :=
  (input_char =? chr "0") &&
  match l with
  | [] => false
  | c :: _ => (chr c =? chr "X") || (chr c =? chr "x")
  end.

(** *** Measures of a run *)

(** What is left to extract: nothing once [eofbit] is set, else the
    characters not yet extracted and the end of input after them. *)
Definition room (s : fstream) : nat :=
  if eofbit s then 0%nat else S (length (chars s)).

(** No single quote is left in the stream. *)
Definition clean (s : fstream) : Prop := "039"%char ∉ chars s.

(** The character and the stream a scanner returns. *)
Definition returned {A : Type} (x : scanned A) : Z * fstream :=
  (snd (fst x), snd x).

(** A scanner that moves on: when it returns, at least one character, or
    the end of input, has been extracted, and a stream without single
    quote gives a character that is not one and stays without; it calls
    through no dangling pointer; it runs out of fuel only under
    [timeout]. *)
Definition advances {A : Type} (proj : A -> Z * fstream) (timeout : Prop)
    (s : fstream) (r : res A) : Prop :=
  match r with
  | Ret a =>
    (room (snd (proj a)) <= Nat.pred (room s))%nat /\
    (clean s -> fst (proj a) <> squote /\ clean (snd (proj a)))
  | Exit _ => True
  | Undef => False
  | OutOfFuel => timeout
  end.

(** A loop of [classify], which may extract nothing. *)
Definition keeps (timeout : Prop) (s : fstream) (r : res fstream) : Prop :=
  match r with
  | Ret s' => (room s' <= room s)%nat /\ (clean s -> clean s')
  | Exit _ => False
  | Undef => False
  | OutOfFuel => timeout
  end.

(** *** Well-formed tokens *)

(** An Indent token carries a positive level, a Dedent token a level that
    is not negative. *)
Definition levels_ok (t : base_token) : Prop :=
  match t with
  | indent_token n => 1 <= n
  | dedent_token n => 0 <= n
  | _ => True
  end.

(** Moreover a symbol, an integer and a punctuation hold at least one
    character. *)
Definition token_ok (t : base_token) : Prop :=
  match t with
  | symbol_token s | integer_token s | punctuation_token s => s <> EmptyString
  | indent_token n => 1 <= n
  | dedent_token n => 0 <= n
  | _ => True
  end.

(** The local [token] points to an object. *)
Definition valid_token (f : frame) : Prop :=
  exists p, token f = Some p /\ (p < length (heap f))%nat.

(** A frame of a file without single quote: none is left in the stream,
    the current character is none and no char literal has been
    allocated. *)
Definition quiet (f : frame) : Prop :=
  clean (source_stream f) /\ input_char f <> squote /\
  Forall (fun t => token_type t <> t_constant) (heap f).

(** A frame whose objects are well formed. *)
Definition tidy (f : frame) : Prop :=
  Forall token_ok (heap f) /\ 0 <= current_indent f.

(** A symbol, an integer and a punctuation hold at least one character. *)
Definition has_lexeme (t : base_token) : Prop :=
  match t with
  | symbol_token s | integer_token s | punctuation_token s => s <> EmptyString
  | _ => True
  end.

(** ** Printing, [print_token], [print_tokens] and [main] *)

(** [std::endl] writes a line feed; [cout] is the text written so far. *)
Definition endl : string := String "010" EmptyString.

(** The double quote the listing puts around names and lexemes. *)
Definition quote_mark : string := String "034" EmptyString.

(** [cout << n] for an [int]: its decimal numeral, with a minus sign when
    it is negative. *)
Definition print_int (n : Z) : string := NilZero.string_of_int (Z.to_int n).

(** The virtual call [token->print_token()]: the line each class writes. *)
Definition print_token (t : base_token) : string :=
  match t with
  | invalid_token invalid_character =>
    "TOKEN[" +:+ quote_mark +:+ "INVALID" +:+ quote_mark +:+
    print_int invalid_character +:+ endl
  | symbol_token symbol =>
    "TOKEN[" +:+ quote_mark +:+ "symbol" +:+ quote_mark +:+ " , " +:+
    quote_mark +:+ symbol +:+ quote_mark +:+ "]" +:+ endl
  | integer_token integer_string =>
    "TOKEN[" +:+ quote_mark +:+ "integer" +:+ quote_mark +:+ " , " +:+
    integer_string +:+ "]" +:+ endl
  | literal_token literal_string =>
    "TOKEN[" +:+ quote_mark +:+ "literal" +:+ quote_mark +:+ " , " +:+
    quote_mark +:+ literal_string +:+ quote_mark +:+ "]" +:+ endl
  | constant_token constant_string =>
    "TOKEN[" +:+ quote_mark +:+ "constant literal" +:+ quote_mark +:+
    " , " +:+ quote_mark +:+ constant_string +:+ quote_mark +:+ "]" +:+ endl
  | punctuation_token punctuation_string =>
    "TOKEN[" +:+ quote_mark +:+ "punctuation" +:+ quote_mark +:+ " , " +:+
    quote_mark +:+ punctuation_string +:+ quote_mark +:+ "]" +:+ endl
  | whitespace_token =>
    "TOKEN[" +:+ quote_mark +:+ "whitespace" +:+ quote_mark +:+ " , " +:+
    quote_mark +:+ " " +:+ quote_mark +:+ "]" +:+ endl
  | eol_token => "TOKEN[" +:+ quote_mark +:+ "EOL" +:+ quote_mark +:+ "]" +:+ endl
  | indent_token indent_level =>
    "TOKEN[" +:+ quote_mark +:+ "INDENT" +:+ quote_mark +:+ ": " +:+
    print_int indent_level +:+ "]" +:+ endl
  | dedent_token dedent_level =>
    "TOKEN[" +:+ quote_mark +:+ "DEDENT" +:+ quote_mark +:+ ": " +:+
    print_int dedent_level +:+ "]" +:+ endl
  | eof_token => "TOKEN[" +:+ quote_mark +:+ "EOF" +:+ quote_mark +:+ "]" +:+ endl
  end.

(** The loop of [print_tokens]: the iterator walks the list and each
    object it points to writes its line after the text written so far. *)
Fixpoint print_loop (objects : list base_token) (iterator : list nat)
    (cout : string) : res string :=
  match iterator with
  | [] => Ret cout
  | p :: iterator =>
    match objects !! p with
    | None => Undef
    | Some obj => print_loop objects iterator (cout +:+ print_token obj)
    end
  end.

Definition print_tokens (f : frame) (cout : string) : res string :=
  print_loop (heap f) (token_list f) cout.

(** [main] on the arguments [argv] (the program name first) in a file
    system [files] that gives the contents of the files that can be
    opened: the text written to [cout] and the value returned.  The value
    of [parse_tokens] is not looked at, and falling off the end of [main]
    returns 0. *)
Definition main (fuel : nat) (garbage : option nat) (argv : list string)
    (files : string -> option (list ascii)) : res (string * Z) :=
  if (length argv <? 2)%nat then
    Ret ("Invalid number of arguments. Filename is required." +:+ endl, -1)
  else
    let filename := List.last argv EmptyString in
    match files filename with
    | None =>
      Ret ("An error occurred while opening " +:+ filename +:+ endl, -1)
    | Some contents =>
      bind (parse_tokens fuel garbage (open contents)) (fun '(_, f) =>
      bind (print_tokens f EmptyString) (fun cout => Ret (cout, 0)))
    end.

(** *** Vocabulary of the listing *)

(** A run that exits does so with one of the two messages of the string
    literal. *)
Definition literal_error {A : Type} (r : res A) : Prop :=
  match r with
  | Exit msg => msg = msg_EOL \/ msg = msg_EOF
  | _ => True
  end.

(** The listing of a sequence of tokens, one line after the other. *)
Definition listing (ts : list base_token) : string :=
  foldr (fun t rest => print_token t +:+ rest) EmptyString ts.

(** The level of an Indent or Dedent token is at most [top]. *)
Definition level_le (top : Z) (t : base_token) : Prop :=
  match t with
  | indent_token n | dedent_token n => n <= top
  | _ => True
  end.

(** An Indent token carries a level from 1 to [top], a Dedent token a
    level from 0 to [top]. *)
Definition level_within (top : Z) (t : base_token) : Prop :=
  match t with
  | indent_token n => 1 <= n <= top
  | dedent_token n => 0 <= n <= top
  | _ => True
  end.

(** A frame of the scan of a file of [size] characters: no level and no
    count of white characters exceeds [size], and no more than the file is
    left to extract. *)
Definition below (size : nat) (f : frame) : Prop :=
  Forall (level_le (Z.of_nat size)) (heap f) /\
  current_indent f <= Z.of_nat size /\
  (room (source_stream f) <= S size)%nat.

(** * Properties *)

(** ** More fuel never changes a settled result *)

Section Monotonicity.

Local Open Scope nat_scope.

Lemma settled_bind {A B : Type} (m : res A) (k : A -> res B) :
  settled (bind m k) -> settled m.
Proof. unfold settled. destruct m; simpl; congruence. Qed.

Lemma bind_mono {A B : Type} (m m' : res A) (k k' : A -> res B) :
  (settled m -> m' = m) ->
  (forall a, settled (k a) -> k' a = k a) ->
  settled (bind m k) -> bind m' k' = bind m k.
Proof.
  intros Hm Hk Hs. rewrite (Hm (settled_bind _ _ Hs)).
  destruct m; simpl in *; auto.
Qed.

Lemma symbol_loop_mono n m stream s :
  settled (symbol.loop n stream s) -> n <= m ->
  symbol.loop m stream s = symbol.loop n stream s.
Proof. revert m stream s. loop_mono n. Qed.

Lemma hex_loop_mono n m stream s :
  settled (integer.hex_loop n stream s) -> n <= m ->
  integer.hex_loop m stream s = integer.hex_loop n stream s.
Proof. revert m stream s. loop_mono n. Qed.

Lemma dec_loop_mono n m stream s :
  settled (integer.dec_loop n stream s) -> n <= m ->
  integer.dec_loop m stream s = integer.dec_loop n stream s.
Proof. revert m stream s. loop_mono n. Qed.

Lemma literal_loop_mono n m stream s :
  settled (literal.loop n stream s) -> n <= m ->
  literal.loop m stream s = literal.loop n stream s.
Proof. revert m stream s. loop_mono n. Qed.

Lemma constant_loop_mono n m stream s :
  settled (constant.loop n stream s) -> n <= m ->
  constant.loop m stream s = constant.loop n stream s.
Proof. revert m stream s. loop_mono n. Qed.

Lemma whitespace_loop_mono n m stream :
  settled (whitespace.loop n stream) -> n <= m ->
  whitespace.loop m stream = whitespace.loop n stream.
Proof. revert m stream. loop_mono n. Qed.

Lemma comment_loop_mono n m c stream :
  settled (comment_loop n c stream) -> n <= m ->
  comment_loop m c stream = comment_loop n c stream.
Proof. revert m c stream. loop_mono n. Qed.

Lemma indent_loop_mono n m g spaces stream :
  settled (indent_loop n g spaces stream) -> n <= m ->
  indent_loop m g spaces stream = indent_loop n g spaces stream.
Proof. revert m g spaces stream. loop_mono n. Qed.

Lemma parse_token_mono n m t stream c :
  settled (parse_token n t stream c) -> n <= m ->
  parse_token m t stream c = parse_token n t stream c.
Proof.
  intros Hs Hle. destruct t; simpl in *; try reflexivity;
    (apply bind_mono; [ | reflexivity | assumption ]);
    apply settled_bind in Hs; intros _.
  - now apply symbol_loop_mono.
  - revert Hs. unfold integer.parse_token.
    repeat match goal with
           | |- context [let '(_, _) := ?x in _] => destruct x
           | |- context [if ?b then _ else _] => destruct b
           end; intros;
      solve [now apply hex_loop_mono | now apply dec_loop_mono].
  - now apply literal_loop_mono.
  - now apply constant_loop_mono.
  - now apply whitespace_loop_mono.
Qed.

Lemma measure_indent_mono n m stream :
  settled (measure_indent n stream) -> n <= m ->
  measure_indent m stream = measure_indent n stream.
Proof.
  unfold measure_indent. destruct (peek stream) as [p s1].
  destruct (isspace p); [|reflexivity].
  destruct (get s1). apply indent_loop_mono.
Qed.

Lemma classify_mono n m f :
  settled (classify n f) -> n <= m -> classify m f = classify n f.
Proof.
  unfold classify. intros Hs Hle.
  destruct (input_char f =? chr "#")%Z.
  { destruct (peek (source_stream f)).
    apply bind_mono; [ | reflexivity | assumption ].
    intros H. now apply comment_loop_mono. }
  destruct (isalpha (input_char f) || (input_char f =? chr "_")%Z);
    [reflexivity|].
  destruct (input_char f =? LF)%Z; [|reflexivity].
  apply bind_mono; [ | reflexivity | assumption ].
  intros H. now apply measure_indent_mono.
Qed.

Lemma iteration_mono n m f :
  settled (iteration n f) -> n <= m -> iteration m f = iteration n f.
Proof.
  unfold iteration. intros Hs Hle.
  apply bind_mono; [ | | assumption ].
  - intros H. now apply classify_mono.
  - intros f' H. destruct (token f') as [p|]; [|reflexivity].
    destruct (heap f' !! p) as [obj|]; [|reflexivity].
    apply bind_mono; [ | reflexivity | assumption ].
    intros H'. now apply parse_token_mono.
Qed.

Lemma inner_loop_mono n m f :
  settled (inner_loop n f) -> n <= m -> inner_loop m f = inner_loop n f.
Proof.
  revert m f. induction n as [|n IH]; intros m f Hs Hle.
  - exfalso. now apply Hs.
  - destruct m as [|m]; [lia|]. simpl in *.
    destruct (eofbit (source_stream f)); [reflexivity|].
    apply bind_mono; [ | | assumption ].
    + intros H. apply iteration_mono; [assumption | lia].
    + intros [f'|f'] H; [|reflexivity]. apply IH; [assumption | lia].
Qed.

Lemma outer_loop_mono n m f :
  settled (outer_loop n f) -> n <= m -> outer_loop m f = outer_loop n f.
Proof.
  revert m f. induction n as [|n IH]; intros m f Hs Hle.
  - exfalso. now apply Hs.
  - destruct m as [|m]; [lia|]. simpl in *.
    destruct (eofbit (source_stream f)); [reflexivity|].
    destruct (get (source_stream f)) as [c stream].
    apply bind_mono; [ | | assumption ].
    + intros H. apply inner_loop_mono; [assumption | lia].
    + intros [f'|f'] H; [|reflexivity]. apply IH; [assumption | lia].
Qed.

(** Running the scanner with more fuel than it needs gives the same
    result. *)
Lemma scan_mono n m garbage contents :
  settled (scan n garbage contents) -> n <= m ->
  scan m garbage contents = scan n garbage contents.
Proof.
  unfold scan, parse_tokens. intros Hs Hle.
  apply bind_mono; [ | reflexivity | assumption ].
  intros H. now apply outer_loop_mono.
Qed.

(** The form used on computed runs. *)
Lemma scan_from n k garbage contents r :
  scan n garbage contents = r -> settled r ->
  scan (n + k) garbage contents = r.
Proof.
  intros <- Hs. apply scan_mono; [assumption | lia].
Qed.

End Monotonicity.

(** ** The objects of the heap and the pointers of the list *)

Section Invariant.

Local Open Scope nat_scope.

(** A virtual call never changes the class of its object. *)
Lemma parse_token_type fuel t stream c t' c' stream' :
  parse_token fuel t stream c = Ret (t', c', stream') ->
  token_type t' = token_type t.
Proof.
  destruct t; simpl;
    repeat match goal with
           | |- context [bind ?m _] => destruct m as [x| | |]; simpl
           | x : (_ * _)%type |- _ => destruct x
           | |- context [let '(_, _) := ?x in _] => destruct x
           end;
    intros H; inversion H; reflexivity.
Qed.

Lemma sound_new t f : scanned_class t -> sound f -> sound (new t f).
Proof.
  intros Ht [Hh Hl]. split; simpl.
  - apply Forall_app. split; [assumption | constructor; [assumption | constructor]].
  - eapply Forall_impl; [exact Hl|]. intros p Hp. simpl in Hp.
    rewrite length_app. lia.
Qed.

Lemma classify_sound fuel f f' :
  classify fuel f = Ret f' -> sound f -> sound f'.
Proof.
  unfold classify. intros H Hf. revert H.
  repeat match goal with
         | |- context [if ?b then _ else _] => destruct b
         | |- context [let '(_, _) := ?x in _] => destruct x
         | |- context [bind ?m _] => destruct m as [x| | |]; simpl
         | x : (_ * _)%type |- _ => destruct x
         end;
    intros H; try discriminate; inversion H; subst; clear H;
    try assumption;
    apply sound_new; try (split; discriminate); exact Hf.
Qed.

Lemma iteration_sound fuel f r :
  iteration fuel f = Ret r -> sound f ->
  match r with inl f' => sound f' | inr f' => sound f' end.
Proof.
  unfold iteration. intros H Hf.
  destruct (classify fuel f) as [f1| | |] eqn:Hc; try discriminate.
  apply classify_sound in Hc; [|assumption]. simpl in H.
  destruct (token f1) as [p|]; [|inversion H; assumption].
  destruct (heap f1 !! p) as [obj|] eqn:Hp; [|discriminate].
  destruct (parse_token fuel obj (source_stream f1) (input_char f1))
    as [[[obj' c] stream]| | |] eqn:Hq; try discriminate.
  inversion H; subst; clear H. destruct Hc as [Hh Hl].
  pose proof (Forall_lookup_1 _ _ _ _ Hh Hp) as [Ho1 Ho2].
  apply parse_token_type in Hq.
  split; simpl.
  - apply Forall_insert; [assumption|].
    split; rewrite Hq; assumption.
  - rewrite length_insert. apply Forall_app. split; [assumption|].
    constructor; [|constructor]. eapply lookup_lt_Some; eassumption.
Qed.

Lemma inner_loop_sound fuel f r :
  inner_loop fuel f = Ret r -> sound f ->
  match r with inl f' => sound f' | inr f' => sound f' end.
Proof.
  revert f. induction fuel as [|fuel IH]; intros f H Hf; [discriminate|].
  simpl in H. destruct (eofbit (source_stream f)).
  { inversion H; assumption. }
  destruct (iteration fuel f) as [[f1|f1]| | |] eqn:Hi; try discriminate;
    apply iteration_sound in Hi; try assumption; simpl in H.
  - eapply IH; eassumption.
  - inversion H; assumption.
Qed.

(** [parse_tokens] answers [true] only through the code after the loops,
    on a sound frame; it answers [false] with a sound frame as well. *)
Lemma outer_loop_sound fuel f ok f' :
  outer_loop fuel f = Ret (ok, f') -> sound f ->
  if ok then exists f0, sound f0 /\ f' = push_eof f0 else sound f'.
Proof.
  revert f. induction fuel as [|fuel IH]; intros f H Hf; [discriminate|].
  simpl in H. destruct (eofbit (source_stream f)).
  { inversion H; subst. exists f. split; [assumption | reflexivity]. }
  destruct (get (source_stream f)) as [c stream].
  match type of H with bind (inner_loop _ ?g) _ = _ =>
    assert (Hg : sound g) by exact Hf;
    destruct (inner_loop fuel g) as [[f1|f1]| | |] eqn:Hi; try discriminate
  end; apply inner_loop_sound in Hi; try assumption; simpl in H.
  - eapply IH; eassumption.
  - inversion H; subst. assumption.
Qed.

(** The objects the pointers of a sound frame refer to. *)
Lemma sound_stream (h ext : list base_token) (l : list nat) :
  Forall scanned_class h -> Forall (fun p => p < length h) l ->
  exists ts, mapM (fun p => (h ++ ext) !! p) l = Some ts /\
             Forall scanned_class ts.
Proof.
  intros Hh. induction 1 as [|p l Hp Hl IH].
  - exists []. split; [reflexivity | constructor].
  - destruct IH as (ts & Hts & Hall).
    destruct (lookup_lt_is_Some_2 _ _ Hp) as [t Ht].
    exists (t :: ts). split.
    + apply mapM_Some_2. constructor.
      * rewrite lookup_app_l by exact Hp. exact Ht.
      * apply mapM_Some_1. assumption.
    + constructor; [|assumption]. exact (Forall_lookup_1 _ _ _ _ Hh Ht).
Qed.

Lemma token_stream_push_eof f :
  sound f ->
  exists front, token_stream (push_eof f) = Some (front ++ [eof_token]) /\
                Forall scanned_class front.
Proof.
  intros [Hh Hl]. unfold token_stream, push_eof. simpl.
  destruct (sound_stream _ [eof_token] _ Hh Hl) as (front & Hm & Hall).
  exists front. split; [|assumption].
  apply mapM_Some_2. apply Forall2_app.
  - apply mapM_Some_1. assumption.
  - constructor; [|constructor]. now apply list_lookup_middle.
Qed.

End Invariant.

(** C4. Whenever the scan runs to completion, that is [parse_tokens]
    returns [true], the token stream holds exactly one EOF token and that
    token is its last element: the stream is some tokens, none of them the
    EOF token, followed by the EOF token. *)
Theorem eof_once_and_last fuel garbage contents ts :
  scan fuel garbage contents = Ret (true, ts) ->
  exists front, ts = front ++ [eof_token] /\ eof_token ∉ front.
Proof.
  unfold scan, parse_tokens. intros H.
  destruct (outer_loop fuel _) as [[ok f]| | |] eqn:Ho; try discriminate.
  simpl in H. destruct (token_stream f) as [ts'|] eqn:Hts; [|discriminate].
  inversion H; subst; clear H.
  apply outer_loop_sound in Ho.
  - destruct Ho as (f0 & Hf0 & ->).
    destruct (token_stream_push_eof f0 Hf0) as (front & Hfront & Hall).
    rewrite Hfront in Hts. inversion Hts; subst. exists front.
    split; [reflexivity|]. intros Hin.
    rewrite Forall_forall in Hall. destruct (Hall _ Hin) as [Hne _].
    now apply Hne.
  - split; constructor.
Qed.

(** A run that completes, for [eof_once_and_last]. *)
Lemma eof_once_and_last_witness :
  exists front,
    [symbol_token "x"; whitespace_token; punctuation_token "=";
     whitespace_token; integer_token "1"; eof_token] = front ++ [eof_token]
    /\ eof_token ∉ front.
Proof.
  apply (eof_once_and_last 8 None (text "x = 1")). vm_compute. reflexivity.
Defined.

(** ** Runs on particular files *)

(** C1. A line feed inside a string literal, not preceded by a backslash, is
    stored in the literal: on the literal [a], line feed, [b] the scan does
    not stop with the message for an unterminated literal but completes with
    one literal token holding the line feed, and the EOF token. *)
Theorem line_feed_inside_literal_is_kept garbage fuel :
  scan (6 + fuel) garbage literal_over_two_lines =
  Ret (true, [literal_token (string_of_list_ascii ["a"; "010"; "b"]%char);
              eof_token]).
Proof. apply scan_from; [vm_compute; reflexivity | discriminate]. Qed.

(** C2. On a first line [a] and a second line that starts with two spaces,
    the token before the first token of line two is [Indent(1)], not
    [Indent(2)]: the first white character is extracted without being
    counted. *)
Theorem two_spaces_give_indent_one garbage fuel :
  scan (5 + fuel) garbage indented_second_line =
  Ret (true, [symbol_token "a"; indent_token 1; symbol_token "b"; eof_token]).
Proof. apply scan_from; [vm_compute; reflexivity | discriminate]. Qed.

(** C3. On [a] followed by a character of no class, no Invalid token is
    made: the symbol object of [a] is scanned a second time from that
    character and its pointer is appended again, so the stream shows the
    same symbol twice, holding the control character. *)
Theorem unclassified_character_reuses_token garbage fuel :
  scan (4 + fuel) garbage symbol_then_control =
  Ret (true, [symbol_token (assign_char 1); symbol_token (assign_char 1);
              eof_token]).
Proof. apply scan_from; [vm_compute; reflexivity | discriminate]. Qed.

(** C6. In the literal [a], backslash, [n], [b] the character after the
    backslash is stored twice (and the backslash dropped): the literal
    holds [annb]. *)
Theorem escaped_character_is_copied_twice garbage fuel :
  scan (7 + fuel) garbage literal_with_escape =
  Ret (true, [literal_token "annb"; eof_token]).
Proof. apply scan_from; [vm_compute; reflexivity | discriminate]. Qed.

(** C9. On a file that starts with a character of no class, the outcome
    depends on the value the local [token] happens to hold: [parse_tokens]
    returns [false] with an empty stream when that value is [NULL], and
    calls through a pointer to no object otherwise. *)
Theorem first_unclassified_depends_on_garbage fuel p :
  scan (2 + fuel) None control_only = Ret (false, []) /\
  scan (2 + fuel) (Some p) control_only = Undef.
Proof.
  split; (apply scan_from; [vm_compute; reflexivity | discriminate]).
Qed.

(** Two settled runs on the same file and with the same initial [token]
    agree, whatever fuel each was given. *)
Lemma scan_agree n m garbage contents r1 r2 :
  scan n garbage contents = r1 -> settled r1 ->
  scan m garbage contents = r2 -> settled r2 -> r1 = r2.
Proof.
  intros H1 S1 H2 S2. destruct (Nat.le_ge_cases n m) as [Hle|Hle].
  - rewrite <- H1 in S1. rewrite <- H1, <- H2. symmetry.
    now apply scan_mono.
  - rewrite <- H2 in S2. rewrite <- H1, <- H2. now apply scan_mono.
Qed.

(** ** Punctuation *)

(** C5 (as the code has it). Every sequence of the punctuation table other
    than the doubled number sign, given as the whole file, is scanned into
    one punctuation token holding the whole sequence, followed by the EOF
    token; a sequence that no other one extends is taken whole by the
    punctuation scanner whatever follows it; and the punctuation scanner,
    were it handed a number sign followed by a second one, would take both,
    but the driver never hands it a number sign. *)
Theorem maximal_munch_but_number_sign :
  Forall (fun s => forall garbage fuel,
            scan (3 + fuel) garbage (text s) =
            Ret (true, [punctuation_token s; eof_token])) munch_table /\
  Forall (fun s => forall rest,
            punctuation.parse_token (mkStream (tail_of s ++ rest) false)
              (lead_of s) =
            let '(c, stream) := get (mkStream rest false) in (s, c, stream))
         longest_table /\
  punctuation.parse_token (open (text "#")) (chr "#") =
    ("##"%string, EOF, mkStream [] true) /\
  (forall fuel stream objects pointers old indent,
     match classify fuel
             (mkFrame stream objects pointers old indent (chr "#")) with
     | Ret f' => exists p, token f' = Some p /\ heap f' !! p = Some eol_token
     | _ => True
     end).
Proof.
  split; [|split; [|split]].
  - unfold munch_table.
    repeat (apply Forall_cons; split;
            [intros garbage fuel; apply scan_from;
             [vm_compute; reflexivity | discriminate]|]).
    apply Forall_nil_2.
  - unfold longest_table.
    repeat (apply Forall_cons; split; [intros rest; reflexivity|]).
    apply Forall_nil_2.
  - reflexivity.
  - intros fuel stream objects pointers old indent. unfold classify. simpl.
    destruct (peek stream) as [pc stream'].
    destruct (comment_loop fuel pc stream'); simpl; trivial.
    exists (length objects). split; [reflexivity|].
    now apply list_lookup_middle.
Qed.

(** C5, the claim as stated fails: the file made of two number signs is
    scanned as a comment, into an EOL token and the EOF token, and with no
    fuel and no initial [token] into the punctuation token of that
    sequence. *)
Lemma number_signs_are_not_punctuation :
  scan 6 None (text "##") = Ret (true, [eol_token; eof_token]) /\
  ~ exists fuel garbage,
      scan fuel garbage (text "##") =
      Ret (true, [punctuation_token "##"; eof_token]).
Proof.
  split; [vm_compute; reflexivity|].
  intros (fuel & garbage & H).
  assert (H3 : scan 6 garbage (text "##") = Ret (true, [eol_token; eof_token]))
    by (vm_compute; reflexivity).
  pose proof (scan_agree _ _ _ _ _ _ H ltac:(discriminate) H3
                ltac:(discriminate)) as E.
  discriminate E.
Qed.

(** ** Characters and their codes *)

Lemma chr_inj c d : chr c = chr d -> c = d.
Proof.
  unfold chr. intros H. apply Nat2Z.inj in H.
  rewrite <- (ascii_nat_embedding c), <- (ascii_nat_embedding d).
  now rewrite H.
Qed.

Lemma chr_range c : 0 <= chr c < 256.
Proof. unfold chr. pose proof (nat_ascii_bounded c). lia. Qed.

Lemma chr_eqb c d : (chr c =? chr d) = Ascii.eqb c d.
Proof.
  destruct (Ascii.eqb_spec c d) as [->|Hne].
  - apply Z.eqb_refl.
  - apply Z.eqb_neq. intros H. now apply Hne, chr_inj.
Qed.

Lemma chr_not_LF c : c <> "010"%char -> (chr c =? LF) = false.
Proof. intros H. apply Z.eqb_neq. intros E. now apply H, chr_inj. Qed.

(** A character stored in a string and read back is unchanged. *)
Lemma char_of_int_chr c : char_of_int (chr c) = c.
Proof.
  unfold char_of_int. rewrite Z.mod_small by apply chr_range.
  unfold chr. rewrite Nat2Z.id. apply ascii_nat_embedding.
Qed.

(** ** Comments *)

Section Comments.

Local Open Scope nat_scope.

(** From a peeked character that is no line feed, the comment loop
    extracts the rest of the line and its line feed. *)
Lemma comment_loop_body body : forall pc rest fuel,
  pc <> LF -> "010"%char ∉ body -> length body + 2 <= fuel ->
  comment_loop fuel pc (mkStream (body ++ "010"%char :: rest) false) =
  Ret (mkStream rest false).
Proof.
  induction body as [|b body IH]; intros pc rest fuel Hpc Hb Hf.
  - destruct fuel as [|[|fuel]]; try (simpl in Hf; lia).
    simpl. apply Z.eqb_neq in Hpc. rewrite Hpc. reflexivity.
  - destruct fuel as [|fuel]; [simpl in Hf; lia|].
    simpl. apply Z.eqb_neq in Hpc. rewrite Hpc. simpl.
    apply not_elem_of_cons in Hb as [Hb1 Hb2].
    apply IH; [|assumption|simpl in Hf; lia].
    intros E. apply Hb1. symmetry. now apply chr_inj.
Qed.

(** On a number sign followed by a comment text of at least one character
    and its line feed, one turn of the inner loop drops the text and the
    line feed, appends one EOL token and takes the first character of the
    next line as the next character; [current_indent] is not touched. *)
Lemma iteration_comment fuel f b body rest :
  input_char f = chr "#" ->
  source_stream f = mkStream (b :: body ++ "010"%char :: rest) false ->
  "010"%char ∉ b :: body -> length body + 3 <= fuel ->
  iteration fuel f =
  Ret (inl (mkFrame (get (mkStream rest false)).2 (heap f ++ [eol_token])
              (token_list f ++ [length (heap f)]) (Some (length (heap f)))
              (current_indent f) (get (mkStream rest false)).1)).
Proof.
  intros Hc Hs Hb Hf. unfold iteration, classify. rewrite Hc, Hs. simpl.
  assert (Hpc : chr b <> LF).
  { intros E. apply (chr_inj b "010") in E. apply Hb. rewrite E.
    constructor. }
  pose proof (comment_loop_body (b :: body) (chr b) rest fuel Hpc Hb) as E.
  simpl in E. rewrite E by lia.
  simpl. rewrite list_lookup_middle by reflexivity. simpl.
  destruct (get (mkStream rest false)) as [c stream]. simpl.
  rewrite list_insert_id by now apply list_lookup_middle.
  reflexivity.
Qed.

End Comments.

(** The unfolding of the two driver loops. *)
Lemma inner_loop_S fuel f :
  inner_loop (S fuel) f =
  if eofbit (source_stream f) then Ret (inl f)
  else bind (iteration fuel f) (fun r =>
         match r with
         | inl f => inner_loop fuel f
         | inr f => Ret (inr f)
         end).
Proof. reflexivity. Qed.

Lemma outer_loop_S fuel f :
  outer_loop (S fuel) f =
  if eofbit (source_stream f) then Ret (true, push_eof f)
  else
    let '(c, stream) := get (source_stream f) in
    bind (inner_loop fuel (mkFrame stream (heap f) (token_list f) (token f)
                             (current_indent f) c)) (fun r =>
      match r with
      | inl f => outer_loop fuel f
      | inr f => Ret (false, f)
      end).
Proof. reflexivity. Qed.

(** *** The scan of the text after a comment

    A run that starts one EOL token later goes through the same steps, all
    addresses shifted by one. *)

Lemma classify_shift fuel f :
  classify fuel (shift f) = res_map shift (classify fuel f).
Proof.
  unfold classify, res_map. cbn [input_char source_stream shift].
  repeat match goal with
         | |- context [if ?b then _ else _] => destruct b
         | |- context [let '(_, _) := ?x in _] => destruct x
         | |- context [bind (comment_loop ?n ?c ?s) _] =>
           destruct (comment_loop n c s)
         | |- context [bind (measure_indent ?n ?s) _] =>
           destruct (measure_indent n s) as [[? ?]| | |];
           cbn [bind current_indent set_stream set_indent shift]
         end; reflexivity.
Qed.

Lemma iteration_shift fuel f :
  iteration fuel (shift f) = res_map shift_either (iteration fuel f).
Proof.
  unfold iteration. rewrite classify_shift. unfold res_map.
  destruct (classify fuel f) as [f1| | |]; try reflexivity.
  cbn [bind shift token heap source_stream input_char option_map].
  destruct (token f1) as [p|]; [|reflexivity].
  cbn [option_map]. change ((eol_token :: heap f1) !! S p) with (heap f1 !! p).
  destruct (heap f1 !! p) as [obj|]; [|reflexivity].
  destruct (parse_token fuel obj (source_stream f1) (input_char f1))
    as [[[obj' c] stream]| | |]; try reflexivity.
  cbn [bind shift_either]. unfold shift.
  cbn [token_list heap source_stream token current_indent input_char
       option_map].
  rewrite map_app. reflexivity.
Qed.

Lemma inner_loop_shift fuel : forall f,
  inner_loop fuel (shift f) = res_map shift_either (inner_loop fuel f).
Proof.
  induction fuel as [|fuel IH]; intros f; [reflexivity|].
  rewrite !inner_loop_S. cbn [shift source_stream].
  destruct (eofbit (source_stream f)); [reflexivity|].
  change (mkFrame (source_stream f) (eol_token :: heap f)
            (0%nat :: map S (token_list f)) (option_map S (token f))
            (current_indent f) (input_char f)) with (shift f).
  rewrite iteration_shift. unfold res_map.
  destruct (iteration fuel f) as [[f1|f1]| | |]; try reflexivity.
  cbn [bind shift_either]. apply IH.
Qed.

Lemma outer_loop_shift fuel : forall f,
  outer_loop fuel (shift f) =
  res_map (fun '(ok, f') => (ok, shift f')) (outer_loop fuel f).
Proof.
  induction fuel as [|fuel IH]; intros f; [reflexivity|].
  rewrite !outer_loop_S. cbn [shift source_stream heap token_list token
                              current_indent].
  destruct (eofbit (source_stream f)).
  { unfold res_map, push_eof, shift.
    cbn [bind heap token_list token source_stream current_indent input_char
         option_map length].
    rewrite map_app. reflexivity. }
  destruct (get (source_stream f)) as [c stream].
  match goal with |- bind (inner_loop fuel ?g) _ = _ =>
    change g with (shift (mkFrame stream (heap f) (token_list f) (token f)
                            (current_indent f) c))
  end.
  rewrite inner_loop_shift. unfold res_map.
  destruct (inner_loop fuel _) as [[f1|f1]| | |]; try reflexivity.
  cbn [bind shift_either]. apply IH.
Qed.

Lemma token_stream_shift f :
  token_stream (shift f) = cons eol_token <$> token_stream f.
Proof.
  unfold token_stream. cbn [shift heap token_list].
  change (mapM (fun p => (eol_token :: heap f) !! p)
            (0%nat :: map S (token_list f)))
    with (cons eol_token <$>
            mapM (fun p => (eol_token :: heap f) !! p) (map S (token_list f))).
  f_equal. induction (token_list f) as [|p l IH]; [reflexivity|].
  cbn [map]. change (mapM ?g (?x :: ?l)) with
    (y ← g x; k ← mapM g l; mret (y :: k)).
  rewrite IH. reflexivity.
Qed.

(** [classify] overwrites [token] as soon as the character has a class. *)
Lemma classify_forgets_token fuel stream objects pointers g1 g2 indent c :
  classified c = true ->
  classify fuel (mkFrame stream objects pointers g1 indent c) =
  classify fuel (mkFrame stream objects pointers g2 indent c).
Proof.
  unfold classified, classify. cbn [input_char]. intros H.
  destruct (c =? chr "#"); [reflexivity|].
  destruct (isalpha c); [reflexivity|].
  destruct (c =? chr "_"); [reflexivity|].
  destruct (c =? LF); [reflexivity|].
  destruct (isspace c); [reflexivity|].
  destruct (c =? dquote); [reflexivity|].
  destruct (c =? squote); [reflexivity|].
  destruct (isdigit c); [reflexivity|].
  destruct (ispunct c); [reflexivity|].
  discriminate H.
Qed.

(** Once its first character has a class, the inner loop does not depend
    on the value of [token] it starts with. *)
Lemma inner_loop_forgets_token fuel stream objects pointers g1 g2 indent c :
  classified c = true -> eofbit stream = false ->
  inner_loop fuel (mkFrame stream objects pointers g1 indent c) =
  inner_loop fuel (mkFrame stream objects pointers g2 indent c).
Proof.
  intros Hc He. destruct fuel as [|fuel]; [reflexivity|].
  rewrite !inner_loop_S. cbn [source_stream]. rewrite He.
  unfold iteration.
  now rewrite (classify_forgets_token fuel _ _ _ g1 g2).
Qed.

(** A comment and the code after it: the stream is one EOL token followed
    by the very tokens the code gives when it is scanned alone.  The code
    is empty or starts with a character that has a class, so that its scan
    does not start from the uninitialised [token]. *)
Lemma comment_then_code body code garbage garbage' n fuel ok ts :
  body <> [] -> "010"%char ∉ body ->
  match code with
  | [] => True
  | c :: _ => classified (chr c) = true
  end ->
  scan n garbage code = Ret (ok, ts) ->
  (n + length body + 3 <= fuel)%nat ->
  scan fuel garbage' ("#"%char :: body ++ "010"%char :: code) =
  Ret (ok, eol_token :: ts).
Proof.
  intros Hne Hb Hcode Hscan Hf.
  destruct body as [|b body]; [contradiction|].
  destruct n as [|n]; [discriminate|].
  destruct fuel as [|[|fuel]]; try (simpl in Hf; lia).
  assert (Hn : (n <= fuel)%nat) by (simpl in Hf; lia).
  revert Hscan. unfold scan, parse_tokens, open.
  rewrite !outer_loop_S.
  cbn [source_stream eofbit get chars heap token_list token current_indent].
  rewrite (inner_loop_S fuel). cbn [source_stream eofbit].
  rewrite (iteration_comment fuel _ b body code);
    [|reflexivity|reflexivity|assumption|simpl in Hf; lia].
  cbn [bind heap token_list current_indent app length].
  destruct code as [|c rest].
  - (* nothing after the comment *)
    cbn [get eofbit chars fst snd].
    destruct n as [|n]; [discriminate|]. destruct fuel as [|fuel]; [lia|].
    intros H. vm_compute in H. inversion H; subst. reflexivity.
  - cbn [get eofbit chars fst snd].
    rewrite (inner_loop_forgets_token fuel _ _ _ _ (option_map S garbage))
      by (assumption || reflexivity).
    change (mkFrame (mkStream rest false) [eol_token] [0%nat]
              (option_map S garbage) 0 (chr c))
      with (shift (mkFrame (mkStream rest false) [] [] garbage 0 (chr c))).
    rewrite inner_loop_shift. intros H.
    pose proof (settled_bind _ _ ltac:(rewrite H; discriminate)) as S1.
    pose proof (settled_bind _ _ S1) as S2.
    rewrite (inner_loop_mono n fuel) by assumption.
    destruct (inner_loop n _) as [[f1|f1]| | |]; try discriminate.
    + cbn [bind res_map shift_either] in *.
      rewrite outer_loop_shift.
      rewrite (outer_loop_mono n (S fuel)) by (assumption || lia).
      destruct (outer_loop n f1) as [[ok' f2]| | |]; try discriminate.
      cbn [bind res_map] in *. rewrite token_stream_shift.
      destruct (token_stream f2); [|discriminate].
      inversion H; subst. reflexivity.
    + cbn [bind res_map shift_either] in *. rewrite token_stream_shift.
      destruct (token_stream f1); [|discriminate].
      inversion H; subst. reflexivity.
Qed.

(** C7. On a number sign, a comment text (of at least one character, none
    a line feed), a line feed and [code], the comment text gives no token
    and leaves no trace: whatever the text is, the stream is one EOL token,
    the symbol [code] and the EOF token.  The same holds of any code in
    place of [code]: its tokens follow the one EOL token. *)
Theorem comment_collapses_to_eol body garbage :
  body <> [] -> "010"%char ∉ body ->
  (forall fuel, (length body + 9 <= fuel)%nat ->
     scan fuel garbage ("#"%char :: body ++ "010"%char :: text "code") =
     Ret (true, [eol_token; symbol_token "code"; eof_token])) /\
  (forall code garbage' n fuel ok ts,
     match code with
     | [] => True
     | c :: _ => classified (chr c) = true
     end ->
     scan n garbage' code = Ret (ok, ts) ->
     (n + length body + 3 <= fuel)%nat ->
     scan fuel garbage ("#"%char :: body ++ "010"%char :: code) =
     Ret (ok, eol_token :: ts)).
Proof.
  intros Hne Hb. split.
  - intros fuel Hf.
    apply (comment_then_code body (text "code") None garbage 6);
      try assumption; [reflexivity | vm_compute; reflexivity | lia].
  - intros code garbage' n fuel ok ts Hc Hs Hf.
    now apply (comment_then_code body code garbage' garbage n).
Qed.

(** The comment text [comment], for [comment_collapses_to_eol]. *)
Lemma comment_collapses_to_eol_witness :
  scan 16 None ("#"%char :: text "comment" ++ "010"%char :: text "code") =
  Ret (true, [eol_token; symbol_token "code"; eof_token]).
Proof.
  refine (proj1 (comment_collapses_to_eol (text "comment") None _ _) 16%nat _).
  - discriminate.
  - simpl. repeat (apply not_elem_of_cons; split; [discriminate|]).
    apply not_elem_of_nil.
  - simpl. lia.
Defined.

(** ** White characters *)

Lemma isspace_codes c : isspace c = true -> c = 32 \/ 9 <= c <= 13.
Proof. unfold isspace. ztests; discriminate. Qed.

Section Blanks.

Local Open Scope nat_scope.

(** The whitespace loop leaves within the length of the text. *)
Lemma whitespace_loop_total l : forall e fuel,
  length l < fuel ->
  exists c stream, whitespace.loop fuel (mkStream l e) = Ret (c, stream).
Proof.
  induction l as [|a l IH]; intros e fuel Hf;
    (destruct fuel as [|fuel]; [lia|]); simpl; unfold get; simpl;
    destruct e; simpl; eauto.
  destruct ((chr a =? chr " ")%Z || (chr a =? 9)%Z || (chr a =? 11)%Z ||
            (chr a =? 13)%Z); [|eauto].
  apply IH. simpl in Hf. lia.
Qed.

(** A white character other than the line feed starts a whitespace
    token. *)
Lemma classify_blank fuel f w :
  input_char f = chr w -> blank w = true ->
  classify fuel f = Ret (new whitespace_token f).
Proof.
  unfold blank, classify. intros -> Hb.
  apply andb_prop in Hb as [Hs Hn]. apply negb_true_iff in Hn.
  rewrite Hs, Hn. apply isspace_codes in Hs.
  replace (chr w =? chr "#")%Z with false by (char_codes; lia).
  replace (isalpha (chr w) || (chr w =? chr "_")%Z) with false;
    [reflexivity|].
  unfold isalpha. char_codes. lia.
Qed.

End Blanks.

(** ** The line after a comment *)

(** The comment that holds a text.  When the comment holds at least one
    character after the number sign, the comment branch extracts the line
    feed that ends it, so the line that follows is not measured, as it
    should not be: the turn of the inner
    loop appends one EOL token, leaves [current_indent] as it was, whatever
    its value, and hands the first character of that line to the dispatch;
    and when that character is a white one, the next turn appends a
    whitespace token, again without touching [current_indent].  No Indent or
    Dedent token is made. *)
Theorem line_after_comment_not_measured fuel f b body rest :
  input_char f = chr "#" ->
  source_stream f = mkStream (b :: body ++ "010"%char :: rest) false ->
  "010"%char ∉ b :: body ->
  (length body + length rest + 3 <= fuel)%nat ->
  exists f1,
    iteration fuel f = Ret (inl f1) /\
    heap f1 = heap f ++ [eol_token] /\
    token_list f1 = token_list f ++ [length (heap f)] /\
    current_indent f1 = current_indent f /\
    (input_char f1, source_stream f1) = get (mkStream rest false) /\
    forall w rest', rest = w :: rest' -> blank w = true ->
      exists f2,
        iteration fuel f1 = Ret (inl f2) /\
        heap f2 = heap f ++ [eol_token; whitespace_token] /\
        token_list f2 =
          token_list f ++ [length (heap f); S (length (heap f))] /\
        current_indent f2 = current_indent f.
Proof.
  intros Hc Hs Hb Hf.
  pose proof (iteration_comment fuel f b body rest Hc Hs Hb ltac:(lia)) as H1.
  eexists. split; [exact H1|]. cbn [heap token_list current_indent
                                     input_char source_stream].
  repeat (split; [reflexivity|]). split; [now destruct (get _)|].
  intros w rest' -> Hw. simpl in Hf.
  destruct (whitespace_loop_total rest' false fuel ltac:(lia)) as (c & s & Hl).
  eexists. split.
  - unfold iteration. rewrite (classify_blank _ _ w); [|reflexivity|assumption].
    simpl. rewrite list_lookup_middle by (rewrite length_app; simpl; lia).
    simpl. rewrite Hl. simpl. reflexivity.
  - simpl. rewrite list_insert_id
      by (apply list_lookup_middle; rewrite length_app; simpl; lia).
    rewrite <- !app_assoc. simpl. rewrite length_app. simpl.
    rewrite Nat.add_1_r. repeat split; reflexivity.
Qed.

(** The file of a comment [#c], a line feed, two spaces and [x], for
    [line_after_comment_not_measured]: the frame is the one the driver has
    built when it meets the number sign. *)
Lemma line_after_comment_not_measured_witness :
  exists f1,
    iteration 6 (mkFrame (mkStream (text "c" ++ "010"%char :: text "  x") false)
                   [] [] None 0 (chr "#")) = Ret (inl f1) /\
    heap f1 = [eol_token] /\
    token_list f1 = [0%nat] /\
    current_indent f1 = 0 /\
    (input_char f1, source_stream f1) = get (mkStream (text "  x") false) /\
    forall w rest', text "  x" = w :: rest' -> blank w = true ->
      exists f2,
        iteration 6 f1 = Ret (inl f2) /\
        heap f2 = [eol_token; whitespace_token] /\
        token_list f2 = [0; 1]%nat /\
        current_indent f2 = 0.
Proof.
  apply (line_after_comment_not_measured 6
           (mkFrame (mkStream (text "c" ++ "010"%char :: text "  x") false)
              [] [] None 0 (chr "#")) "c" [] (text "  x")).
  - reflexivity.
  - reflexivity.
  - simpl. repeat (apply not_elem_of_cons; split; [discriminate|]).
    apply not_elem_of_nil.
  - simpl. lia.
Defined.

(** The same file scanned as a whole: the two spaces give a whitespace
    token and no Indent token. *)
Example scan_comment_then_indented_line garbage fuel :
  scan (6 + fuel) garbage (text "#c" ++ "010"%char :: text "  x") =
  Ret (true, [eol_token; whitespace_token; symbol_token "x"; eof_token]).
Proof. apply scan_from; [vm_compute; reflexivity | discriminate]. Qed.

(** C10. The line that follows a comment should not be measured, and is not
    when the comment holds a text ([line_after_comment_not_measured]).  The
    code misses it for the comment that holds none: the loop of the comment
    branch tests the character it has peeked before it extracts any, so when
    the line feed directly follows the number sign it is left in the stream;
    the EOL token of the comment hands it to the dispatch, the indentation is
    measured there, and the one line break gives two tokens, the EOL token
    and an Indent token for the line after the comment, whose white
    characters give no whitespace token. *)
Lemma empty_comment_line_is_measured :
  scan 5 None empty_comment_then_indent =
  Ret (true, [eol_token; indent_token 1; symbol_token "x"; eof_token]).
Proof. vm_compute. reflexivity. Qed.

(** ** Literals that are not closed *)

Section Unterminated.

Local Open Scope nat_scope.

Lemma backslash_eqb c : (chr c =? backslash)%Z = Ascii.eqb c "092".
Proof. apply (chr_eqb c "092"). Qed.

Lemma squote_eqb c : (chr c =? squote)%Z = Ascii.eqb c "039".
Proof. apply (chr_eqb c "039"). Qed.

Lemma dquote_eqb c : (chr c =? dquote)%Z = Ascii.eqb c "034".
Proof. apply (chr_eqb c "034"). Qed.

Lemma chr_not_EOF c : (chr c =? EOF)%Z = false.
Proof. pose proof (chr_range c). unfold EOF. lia. Qed.

(** The loop of the string literal leaves within the length of the text:
    it exits with a message, or returns, and it returns only on a text
    that holds a closing quote. *)
Lemma literal_loop_total fuel : forall l e s,
  length l < fuel ->
  match literal.loop fuel (mkStream l e) s with
  | Exit _ => True
  | Ret _ => e = false /\ closes "034" false l = true
  | _ => False
  end.
Proof.
  induction fuel as [|fuel IH]; intros l e s Hf; [lia|].
  destruct e; [exact I|].
  destruct l as [|c l]; [exact I|].
  cbn [literal.loop get eofbit chars]. simpl in Hf.
  rewrite backslash_eqb, dquote_eqb, chr_not_EOF.
  cbn [closes]. destruct (Ascii.eqb c "092").
  - destruct l as [|d l]; [exact I|].
    cbn [peek get eofbit chars closes]. simpl in Hf.
    rewrite backslash_eqb, dquote_eqb, chr_not_EOF.
    destruct (Ascii.eqb d "034") eqn:Hq; simpl.
    { apply (IH l false). lia. }
    destruct (Ascii.eqb d "092") eqn:Hb; simpl.
    { apply (IH l false). lia. }
    destruct (chr d =? LF)%Z; [exact I|].
    specialize (IH (d :: l) false (append_char s (chr d)) ltac:(simpl; lia)).
    simpl in IH. now rewrite Hq, Hb in IH.
  - destruct (Ascii.eqb c "034"); simpl.
    + destruct l; simpl; now split.
    + apply (IH l false). lia.
Qed.

End Unterminated.

(** ** The char literal that is not closed *)

Section Room.

Local Open Scope nat_scope.

Lemma length_append_char s c :
  String.length (append_char s c) = S (String.length s).
Proof.
  unfold append_char. induction s as [|a s IH]; [reflexivity|].
  change (S (String.length (s +:+ String (char_of_int c) EmptyString)) =
          S (S (String.length s))).
  now f_equal.
Qed.

(** An append and the turns that follow it. *)
Lemma growing_spec {A : Type} capacity s c (k : string -> grown A) :
  (String.length s < capacity /\
   growing (append_within capacity s c) k = k (append_char s c)) \/
  (capacity <= String.length s /\
   growing (append_within capacity s c) k = Thrown).
Proof.
  unfold append_within.
  destruct (Nat.ltb_spec (String.length s) capacity); [left | right];
    now split.
Qed.

(** The bounded loop is the loop of [constant.loop] until an append
    throws. *)
Lemma loop_within_sound capacity fuel : forall st s,
  match constant.loop_within capacity fuel st s with
  | Returned r => constant.loop fuel st s = Ret r
  | Thrown => True
  | Scanning => constant.loop fuel st s = OutOfFuel
  end.
Proof.
  induction fuel as [|fuel IH]; intros st s; [reflexivity|].
  cbn [constant.loop_within constant.loop].
  destruct (get st) as [c st1].
  repeat match goal with
         | |- context [if ?b then _ else _] => destruct b
         | |- context [peek ?x] => destruct (peek x) as [? ?]
         | |- context [get ?x] => destruct (get x) as [? ?]
         | |- context [growing (append_within capacity ?s ?c) ?k] =>
           destruct (growing_spec capacity s c k) as [[_ ->]|[_ ->]]
         end;
    first [exact I | reflexivity | apply IH].
Qed.

(** A char literal only grows while it is scanned. *)
Lemma constant_loop_grows fuel : forall st s str c st',
  constant.loop fuel st s = Ret (str, c, st') ->
  String.length s <= String.length str.
Proof.
  induction fuel as [|fuel IH]; intros st s str c st' H; [discriminate|].
  cbn [constant.loop] in H.
  destruct (get st) as [c1 st1].
  repeat match type of H with
         | context [if ?b then _ else _] => destruct b
         | context [peek ?x] => destruct (peek x) as [? ?]
         | context [get ?x] => destruct (get x) as [? ?]
         end;
    first [ apply IH in H; rewrite ?length_append_char in H; lia
          | inversion H; subst; lia ].
Qed.

(** A char literal that fits is scanned as [constant.loop] scans it. *)
Lemma loop_within_complete capacity fuel : forall st s str c st',
  constant.loop fuel st s = Ret (str, c, st') ->
  String.length str <= capacity ->
  constant.loop_within capacity fuel st s = Returned (str, c, st').
Proof.
  induction fuel as [|fuel IH]; intros st s str c st' H Hc; [discriminate|].
  cbn [constant.loop_within constant.loop] in *.
  destruct (get st) as [c1 st1].
  repeat match type of H with
         | context [if ?b then _ else _] => destruct b
         | context [peek ?x] => destruct (peek x) as [? ?]
         | context [get ?x] => destruct (get x) as [? ?]
         end;
    try (inversion H; subst; reflexivity);
    pose proof (constant_loop_grows _ _ _ _ _ _ H) as Hg;
    rewrite ?length_append_char in Hg;
    repeat match goal with
           | |- context [growing (append_within capacity ?s ?c) ?k] =>
             destruct (growing_spec capacity s c k) as [[_ ->]|[Hn _]];
             [|rewrite ?length_append_char in Hn; lia]
           end;
    now apply IH.
Qed.

(** On a text that holds no closing quote, and once the stream is at its
    end, the loop never returns: it is still running while the string has
    room, and has thrown once the room is used up. *)
Lemma loop_within_unterminated capacity fuel : forall l e s,
  e = true \/ closes "039" false l = false ->
  match constant.loop_within capacity fuel (mkStream l e) s with
  | Returned _ => False
  | Thrown => capacity < String.length s + 2 * fuel
  | Scanning => fuel = 0 \/ String.length s + fuel <= capacity
  end.
Proof.
  induction fuel as [|fuel IH]; intros l e s H; [now left|].
  assert (step : forall l e s c,
             e = true \/ closes "039" false l = false ->
             match growing (append_within capacity s c)
                     (fun s' => constant.loop_within capacity fuel
                                  (mkStream l e) s') with
             | Returned _ => False
             | Thrown => capacity < String.length s + 2 * fuel + 1
             | Scanning => String.length s + fuel + 1 <= capacity
             end).
  { intros l' e' s' c' H'.
    destruct (growing_spec capacity s' c'
                (fun s0 => constant.loop_within capacity fuel
                             (mkStream l' e') s0)) as [[Hlt ->]|[Hge ->]];
      [|lia].
    specialize (IH l' e' (append_char s' c') H').
    destruct (constant.loop_within capacity fuel _ _);
      rewrite ?length_append_char in IH; [contradiction | lia | lia]. }
  assert (one : forall l e s c,
             e = true \/ closes "039" false l = false ->
             match growing (append_within capacity s c)
                     (fun s' => constant.loop_within capacity fuel
                                  (mkStream l e) s') with
             | Returned _ => False
             | Thrown => capacity < String.length s + 2 * S fuel
             | Scanning => S fuel = 0 \/ String.length s + S fuel <= capacity
             end).
  { intros l' e' s' c' H'. specialize (step l' e' s' c' H').
    destruct (growing _ _); [contradiction | lia | lia]. }
  destruct e.
  { cbn [constant.loop_within get eofbit]. apply one. now left. }
  destruct H as [H|H]; [discriminate|].
  destruct l as [|c l].
  { cbn [constant.loop_within get eofbit chars]. apply one. now left. }
  cbn [constant.loop_within get eofbit chars]. simpl in H.
  rewrite backslash_eqb, squote_eqb.
  destruct (Ascii.eqb c "092").
  - destruct l as [|d l].
    + cbn [peek eofbit chars]. apply one. now left.
    + cbn [peek get eofbit chars]. simpl in H.
      rewrite backslash_eqb, squote_eqb.
      assert (two : closes "039" false l = false ->
                match
                  growing (append_within capacity s backslash)
                    (fun s1 =>
                       growing (append_within capacity s1 (chr d))
                         (fun s2 => constant.loop_within capacity fuel
                                      (mkStream l false) s2))
                with
                | Returned _ => False
                | Thrown => capacity < String.length s + 2 * S fuel
                | Scanning =>
                  S fuel = 0 \/ String.length s + S fuel <= capacity
                end).
      { intros H'.
        destruct (growing_spec capacity s backslash
                    (fun s1 =>
                       growing (append_within capacity s1 (chr d))
                         (fun s2 => constant.loop_within capacity fuel
                                      (mkStream l false) s2)))
          as [[Hlt ->]|[Hge ->]]; [|lia].
        specialize (step l false (append_char s backslash) (chr d)
                      (or_intror H')).
        destruct (growing _ _); rewrite ?length_append_char in step;
          [contradiction | lia | lia]. }
      destruct (Ascii.eqb d "039") eqn:Hq; cbn [orb].
      { now apply two. }
      destruct (Ascii.eqb d "092") eqn:Hb; cbn [orb].
      { now apply two. }
      apply one. right. simpl. now rewrite Hq, Hb.
  - destruct (Ascii.eqb c "039"); [discriminate|]. cbn [negb].
    apply one. now right.
Qed.

End Room.

(** C8 (as the code has it). A char literal whose text holds no closing
    single quote is never returned from: [constant_token::parse_token]
    makes no test for the end of the input and goes on extracting past it,
    appending to the literal at each turn; while the string has room the
    loop is still running, whatever the number of turns, and once the room
    is used up the append throws, which ends the run.  The loop of the
    string literal, on the same text, leaves within its length, by a
    return or with a message. *)
Theorem unterminated_constant_never_returns capacity rest :
  closes "039" false rest = false ->
  (forall fuel r,
     constant.parse_token_within capacity fuel (mkStream rest false) squote
     <> Returned r) /\
  (forall fuel,
     (2 * fuel <= capacity)%nat ->
     constant.parse_token_within capacity fuel (mkStream rest false) squote
     = Scanning) /\
  (forall fuel,
     (capacity < fuel)%nat ->
     constant.parse_token_within capacity fuel (mkStream rest false) squote
     = Thrown) /\
  (forall s,
     (exists r, literal.loop (S (length rest)) (mkStream rest false) s
                = Ret r) \/
     (exists msg, literal.loop (S (length rest)) (mkStream rest false) s
                  = Exit msg)).
Proof.
  intros H. unfold constant.parse_token_within.
  assert (Hl : forall fuel,
             match constant.loop_within capacity fuel (mkStream rest false)
                     EmptyString with
             | Returned _ => False
             | Thrown => (capacity < 2 * fuel)%nat
             | Scanning => fuel = 0%nat \/ (fuel <= capacity)%nat
             end).
  { intros fuel.
    exact (loop_within_unterminated capacity fuel rest false EmptyString
             (or_intror H)). }
  split; [|split; [|split]].
  - intros fuel r E. specialize (Hl fuel). now rewrite E in Hl.
  - intros fuel Hf. specialize (Hl fuel).
    destruct (constant.loop_within _ _ _ _); [contradiction | lia | easy].
  - intros fuel Hf. specialize (Hl fuel).
    destruct (constant.loop_within _ _ _ _); [contradiction | easy | lia].
  - intros s.
    pose proof (literal_loop_total (S (length rest)) rest false s
                  ltac:(lia)) as Ht.
    destruct (literal.loop _ _ _) as [r|msg| |]; try contradiction.
    + left. now exists r.
    + right. now exists msg.
Qed.

(** The file ['abc] and a string with room for a thousand characters, for
    [unterminated_constant_never_returns]. *)
Lemma unterminated_constant_never_returns_witness :
  (forall fuel r,
     constant.parse_token_within 1000 fuel (mkStream (text "abc") false)
       squote <> Returned r) /\
  (forall fuel,
     (2 * fuel <= 1000)%nat ->
     constant.parse_token_within 1000 fuel (mkStream (text "abc") false)
       squote = Scanning) /\
  (forall fuel,
     (1000 < fuel)%nat ->
     constant.parse_token_within 1000 fuel (mkStream (text "abc") false)
       squote = Thrown) /\
  (forall s,
     (exists r, literal.loop (S (length (text "abc")))
                  (mkStream (text "abc") false) s = Ret r) \/
     (exists msg, literal.loop (S (length (text "abc")))
                    (mkStream (text "abc") false) s = Exit msg)).
Proof.
  apply (unterminated_constant_never_returns 1000 (text "abc")). reflexivity.
Defined.

(** C8, the claim as stated fails: the scan of a char literal that is not
    closed does come to an end.  On the file ['abc], with a string that has
    room for eight characters, the loop is still running after eight turns,
    well past the end of the input, and the ninth turn ends the run by the
    throw of the append; and whatever room the string has, the run has
    ended by a throw after one turn more than that room. *)
Lemma unterminated_constant_scan_ends :
  constant.parse_token_within 8 8 (mkStream (text "abc") false) squote
  = Scanning /\
  constant.parse_token_within 8 9 (mkStream (text "abc") false) squote
  = Thrown /\
  (forall capacity,
     constant.parse_token_within capacity (S capacity)
       (mkStream (text "abc") false) squote = Thrown).
Proof.
  split; [vm_compute; reflexivity|]. split; [vm_compute; reflexivity|].
  intros capacity. unfold constant.parse_token_within.
  pose proof (loop_within_unterminated capacity (S capacity) (text "abc")
                false EmptyString (or_intror eq_refl)) as H.
  destruct (constant.loop_within _ _ _ _); [contradiction | reflexivity|].
  cbn [String.length] in H. lia.
Qed.

(** End of input inside a string literal does stop the scan: a file that
    starts with a string literal whose text holds no closing quote is
    scanned into no token stream at all, the program exits with one of the
    two messages. *)
Lemma unterminated_literal_exits rest garbage fuel :
  closes "034" false rest = false -> (length rest + 3 <= fuel)%nat ->
  exists msg, scan fuel garbage ("034"%char :: rest) = Exit msg.
Proof.
  intros H Hf. destruct fuel as [|[|fuel]]; try lia.
  unfold scan, parse_tokens, open.
  rewrite outer_loop_S. cbn [source_stream eofbit get chars].
  rewrite inner_loop_S. cbn [source_stream eofbit].
  unfold iteration, classify. simpl. unfold literal.parse_token.
  pose proof (literal_loop_total fuel rest false EmptyString ltac:(lia)) as Ht.
  destruct (literal.loop fuel _ _) as [r|msg| |]; try contradiction.
  - destruct Ht as [_ Ht]. congruence.
  - exists msg. reflexivity.
Qed.

(** A line feed met by the main path of the string literal loop is stored
    like any other character. *)
Lemma literal_line_feed_step fuel rest s :
  literal.loop (S fuel) (mkStream ("010"%char :: rest) false) s =
  literal.loop fuel (mkStream rest false) (append_char s LF).
Proof. reflexivity. Qed.

(** After a backslash, a character that is neither the quote, the
    backslash nor the line feed is stored twice: once when it is peeked,
    once more when the next turn extracts it. *)
Lemma literal_escape_copies_twice fuel d rest s :
  Ascii.eqb d "034" = false -> Ascii.eqb d "092" = false ->
  d <> "010"%char ->
  literal.loop (S (S fuel)) (mkStream ("092"%char :: d :: rest) false) s =
  literal.loop fuel (mkStream rest false)
    (append_char (append_char s (chr d)) (chr d)).
Proof.
  intros Hq Hb Hn.
  cbn [literal.loop get peek eofbit chars].
  change (chr "092" =? backslash) with true. cbv iota.
  rewrite !backslash_eqb, !dquote_eqb, !chr_not_EOF, Hq, Hb.
  rewrite (chr_not_LF d Hn). reflexivity.
Qed.

(** ** Indentation *)

Section Indentation.

Local Open Scope nat_scope.

Lemma indent_loop_spaces k : forall fuel spaces c rest,
  isspace (chr c) = false -> k < fuel ->
  indent_loop fuel (chr " ") spaces
    (mkStream (replicate k " "%char ++ c :: rest) false) =
  Ret ((spaces + Z.of_nat k)%Z, mkStream (c :: rest) false).
Proof.
  induction k as [|k IH]; intros fuel spaces c rest Hc Hf;
    (destruct fuel as [|fuel]; [lia|]).
  - simpl. rewrite Hc. now rewrite Z.add_0_r.
  - cbn [replicate app indent_loop peek get eofbit chars].
    change (negb (chr " " =? LF)%Z && negb false) with true.
    change (isspace (chr " ")) with true. cbv iota.
    rewrite IH by (assumption || lia). f_equal. f_equal. lia.
Qed.

(** The count of [measure_indent] on a line that starts with [n] spaces:
    one less than [n], the first space being extracted uncounted. *)
Lemma measure_indent_spaces n fuel c rest :
  isspace (chr c) = false -> n < fuel ->
  measure_indent fuel (mkStream (replicate n " "%char ++ c :: rest) false) =
  Ret (Z.of_nat (Nat.pred n), mkStream (c :: rest) false).
Proof.
  intros Hc Hf. unfold measure_indent. destruct n as [|n].
  - simpl. now rewrite Hc.
  - cbn [replicate app peek get eofbit chars].
    change (isspace (chr " ")) with true. cbv iota.
    rewrite indent_loop_spaces by (assumption || lia). reflexivity.
Qed.

End Indentation.

(** ** Characters of no class *)

(** For a character that passes none of the tests, [classify] allocates
    nothing: the frame, and with it the pointer [token], is unchanged. *)
Lemma classify_unclassified fuel f :
  classified (input_char f) = false -> classify fuel f = Ret f.
Proof.
  unfold classified, classify. intros H.
  repeat (apply orb_false_elim in H as [H ?]).
  repeat match goal with E : _ = false |- _ => rewrite E; clear E end.
  reflexivity.
Qed.

(** No run, complete or not, shows an Invalid token. *)
Lemma no_invalid_token fuel garbage contents ok ts :
  scan fuel garbage contents = Ret (ok, ts) ->
  forall c, invalid_token c ∉ ts.
Proof.
  unfold scan, parse_tokens. intros H c Hin.
  destruct (outer_loop fuel _) as [[ok' f]| | |] eqn:Ho; try discriminate.
  simpl in H. destruct (token_stream f) as [ts'|] eqn:Hts; [|discriminate].
  inversion H; subst; clear H.
  apply outer_loop_sound in Ho; [|split; constructor].
  assert (Hall : forall t, t ∈ ts -> t = eof_token \/ scanned_class t).
  { destruct ok.
    - destruct Ho as (f0 & Hf0 & ->).
      destruct (token_stream_push_eof f0 Hf0) as (front & Hfront & Hall).
      rewrite Hfront in Hts. inversion Hts; subst. intros t Ht.
      apply elem_of_app in Ht as [Ht|Ht].
      + right. rewrite Forall_forall in Hall. now apply Hall.
      + left. now apply list_elem_of_singleton in Ht.
    - destruct Ho as [Hh Hl].
      destruct (sound_stream _ [] _ Hh Hl) as (ts2 & Hm & Hall).
      rewrite app_nil_r in Hm. unfold token_stream in Hts.
      rewrite Hm in Hts. inversion Hts; subst. intros t Ht.
      right. rewrite Forall_forall in Hall. now apply Hall. }
  destruct (Hall _ Hin) as [E|[_ Hni]]; [discriminate E | now apply Hni].
Qed.

(** On such a character the turn of the inner loop calls [parse_token] on
    the object [token] still points to, the one of the token before, and
    appends that same pointer once more. *)
Lemma iteration_unclassified fuel f p obj :
  classified (input_char f) = false ->
  token f = Some p -> heap f !! p = Some obj ->
  iteration fuel f =
  bind (parse_token fuel obj (source_stream f) (input_char f))
    (fun '(obj', c, stream) =>
       Ret (inl (mkFrame stream (<[p := obj']> (heap f))
                   (token_list f ++ [p]) (Some p) (current_indent f) c))).
Proof.
  intros Hc Ht Hp. unfold iteration.
  rewrite classify_unclassified by assumption. simpl.
  rewrite Ht, Hp. reflexivity.
Qed.

(** When [token] is [NULL] at that point, [parse_tokens] returns [false]. *)
Lemma iteration_unclassified_null fuel f :
  classified (input_char f) = false -> token f = None ->
  iteration fuel f = Ret (inr f).
Proof.
  intros Hc Ht. unfold iteration.
  rewrite classify_unclassified by assumption. simpl.
  now rewrite Ht.
Qed.

(** ** What the run depends on *)

(** On an empty file, or one whose first character has a class, the run
    does not depend on the value [token] held at the start. *)
Lemma scan_independent_of_garbage fuel g1 g2 contents :
  match contents with
  | [] => True
  | c :: _ => classified (chr c) = true
  end ->
  scan fuel g1 contents = scan fuel g2 contents.
Proof.
  intros H. unfold scan, parse_tokens, open.
  destruct fuel as [|[|fuel]]; try reflexivity.
  destruct contents as [|c rest]; [reflexivity|].
  rewrite !outer_loop_S. cbn [source_stream eofbit get chars heap token_list
                              token current_indent].
  rewrite !inner_loop_S. cbn [source_stream eofbit].
  unfold iteration.
  rewrite (classify_forgets_token fuel _ _ _ g1 g2) by assumption.
  reflexivity.
Qed.

(** Why [comment_collapses_to_eol] asks for a first character that has a
    class: after a comment, a character of no class is scanned by the EOL
    object of the comment, whose pointer is appended once more. *)
Example comment_then_unclassified garbage fuel :
  scan (6 + fuel) garbage (text "#c" ++ ["010"; "001"]%char) =
  Ret (true, [eol_token; eol_token; eof_token]).
Proof. apply scan_from; [vm_compute; reflexivity | discriminate]. Qed.

(** On every file that starts with a character of no class, the run
    returns [false] with an empty stream when [token] happens to be [NULL]
    and uses a pointer to no object otherwise. *)
Lemma first_unclassified_outcomes c rest fuel p :
  classified (chr c) = false ->
  scan (2 + fuel) None (c :: rest) = Ret (false, []) /\
  scan (2 + fuel) (Some p) (c :: rest) = Undef.
Proof.
  intros Hc. unfold scan, parse_tokens, open. cbn [Nat.add].
  rewrite !outer_loop_S.
  cbn [source_stream eofbit get chars heap token_list token current_indent].
  rewrite !inner_loop_S. cbn [source_stream eofbit]. split.
  - rewrite iteration_unclassified_null by (assumption || reflexivity).
    reflexivity.
  - unfold iteration. rewrite classify_unclassified by assumption.
    reflexivity.
Qed.

(** ** The sample runs of the specification *)

Example basic_sequence garbage fuel :
  scan (8 + fuel) garbage (text "x = 1") =
  Ret (true, [symbol_token "x"; whitespace_token; punctuation_token "=";
              whitespace_token; integer_token "1"; eof_token]).
Proof. apply scan_from; [vm_compute; reflexivity | discriminate]. Qed.

Example escape_fidelity garbage fuel :
  scan (8 + fuel) garbage ["034"; "a"; "b"; "092"; "034"; "c"; "034"]%char =
  Ret (true, [literal_token
                (string_of_list_ascii ["a"; "b"; "092"; "034"; "c"]%char);
              eof_token]).
Proof. apply scan_from; [vm_compute; reflexivity | discriminate]. Qed.

Example fatal_literal garbage fuel :
  scan (6 + fuel) garbage ("034"%char :: text "abc") = Exit msg_EOF.
Proof. apply scan_from; [vm_compute; reflexivity | discriminate]. Qed.

Example indent_then_dedent garbage fuel :
  scan (8 + fuel) garbage
    (text "a" ++ "010"%char :: text "   b" ++ "010"%char :: text "c") =
  Ret (true, [symbol_token "a"; indent_token 2; symbol_token "b";
              dedent_token 0; symbol_token "c"; eof_token]).
Proof. apply scan_from; [vm_compute; reflexivity | discriminate]. Qed.

(** * The other scanners

    What the scanners of symbols, integers, white space and literals take
    from the stream. *)

Section Runs.

Local Open Scope nat_scope.

Lemma append_assoc_string (s t u : string) :
  ((s +:+ t) +:+ u = s +:+ (t +:+ u))%string.
Proof.
  induction s as [|a s IH]; [reflexivity|].
  change (String a ((s +:+ t) +:+ u) = String a (s +:+ (t +:+ u)))%string.
  now f_equal.
Qed.

Lemma append_empty_r (s : string) : (s +:+ EmptyString = s)%string.
Proof.
  induction s as [|a s IH]; [reflexivity|].
  change (String a (s +:+ EmptyString) = String a s)%string. now f_equal.
Qed.

Lemma add_text_nil s : add_text s [] = s.
Proof. apply append_empty_r. Qed.

Lemma add_text_cons s c l :
  add_text (append_char s (chr c)) l = add_text s (c :: l).
Proof.
  unfold add_text, append_char. rewrite append_assoc_string, char_of_int_chr.
  reflexivity.
Qed.

Lemma symbol_loop_run run : forall rest fuel s,
  forallb ident_char run = true -> stops ident_char rest ->
  length run < fuel ->
  symbol.loop fuel (mkStream (run ++ rest) false) s =
  Ret (add_text s run, (get (mkStream rest false)).1,
       (get (mkStream rest false)).2).
Proof.
  induction run as [|a run IH]; intros rest fuel s Hrun Hrest Hf;
    (destruct fuel as [|fuel]; [simpl in Hf; lia|]).
  - rewrite add_text_nil. destruct rest as [|c rest]; [reflexivity|].
    simpl in *. unfold ident_char in Hrest. now rewrite Hrest.
  - simpl in Hrun. apply andb_prop in Hrun as [Ha Hrun].
    cbn [app symbol.loop get eofbit chars]. unfold ident_char in Ha.
    rewrite Ha, IH by (assumption || (simpl in Hf; lia)).
    now rewrite add_text_cons.
Qed.

Lemma dec_loop_run run : forall rest fuel s,
  forallb digit_char run = true -> stops digit_char rest ->
  length run < fuel ->
  integer.dec_loop fuel (mkStream (run ++ rest) false) s =
  Ret (add_text s run, (get (mkStream rest false)).1,
       (get (mkStream rest false)).2).
Proof.
  induction run as [|a run IH]; intros rest fuel s Hrun Hrest Hf;
    (destruct fuel as [|fuel]; [simpl in Hf; lia|]).
  - rewrite add_text_nil. destruct rest as [|c rest]; [reflexivity|].
    simpl in *. unfold digit_char in Hrest. now rewrite Hrest.
  - simpl in Hrun. apply andb_prop in Hrun as [Ha Hrun].
    cbn [app integer.dec_loop get eofbit chars]. unfold digit_char in Ha.
    rewrite Ha, IH by (assumption || (simpl in Hf; lia)).
    now rewrite add_text_cons.
Qed.

Lemma hex_loop_run run : forall rest fuel s,
  forallb xdigit_char run = true -> stops xdigit_char rest ->
  length run < fuel ->
  integer.hex_loop fuel (mkStream (run ++ rest) false) s =
  Ret (add_text s run, (get (mkStream rest false)).1,
       (get (mkStream rest false)).2).
Proof.
  induction run as [|a run IH]; intros rest fuel s Hrun Hrest Hf;
    (destruct fuel as [|fuel]; [simpl in Hf; lia|]).
  - rewrite add_text_nil. destruct rest as [|c rest]; [reflexivity|].
    simpl in *. unfold xdigit_char in Hrest. now rewrite Hrest.
  - simpl in Hrun. apply andb_prop in Hrun as [Ha Hrun].
    cbn [app integer.hex_loop get eofbit chars]. unfold xdigit_char in Ha.
    rewrite Ha, IH by (assumption || (simpl in Hf; lia)).
    now rewrite add_text_cons.
Qed.

Lemma whitespace_loop_run run : forall rest fuel,
  forallb space_char run = true -> stops space_char rest ->
  length run < fuel ->
  whitespace.loop fuel (mkStream (run ++ rest) false) =
  Ret (get (mkStream rest false)).
Proof.
  induction run as [|a run IH]; intros rest fuel Hrun Hrest Hf;
    (destruct fuel as [|fuel]; [simpl in Hf; lia|]).
  - destruct rest as [|c rest]; [reflexivity|].
    simpl in *. unfold space_char in Hrest. now rewrite Hrest.
  - simpl in Hrun. apply andb_prop in Hrun as [Ha Hrun].
    cbn [app whitespace.loop get eofbit chars]. unfold space_char in Ha.
    rewrite Ha. apply IH; try assumption. simpl in Hf. lia.
Qed.

End Runs.

(** X1. The symbol scanner overwrites the symbol of its object with the
    lead character followed by the whole run of letters, digits and
    underscores that follows it, and returns the character after the run
    (end of input when there is none). *)
Theorem symbol_takes_the_identifier_run old lead run rest fuel :
  forallb ident_char run = true -> stops ident_char rest ->
  (length run < fuel)%nat ->
  parse_token fuel (symbol_token old) (mkStream (run ++ rest) false) lead =
  Ret (symbol_token (add_text (assign_char lead) run),
       (get (mkStream rest false)).1, (get (mkStream rest false)).2).
Proof.
  intros Hrun Hrest Hf. cbn [parse_token]. unfold symbol.parse_token.
  now rewrite symbol_loop_run.
Qed.

(** The symbol [count1] before [ = 0], for
    [symbol_takes_the_identifier_run]. *)
Lemma symbol_takes_the_identifier_run_witness :
  parse_token 6 (symbol_token EmptyString)
    (mkStream (text "ount1" ++ text " = 0") false) (chr "c") =
  Ret (symbol_token "count1", chr " ", mkStream (text "= 0") false).
Proof.
  apply (symbol_takes_the_identifier_run EmptyString (chr "c") (text "ount1")
           (text " = 0") 6).
  - reflexivity.
  - reflexivity.
  - simpl. lia.
Defined.

(** X2. Off the hexadecimal path (the lead is not [0], or no [x] or [X]
    follows it), the integer scanner takes the lead character and the whole
    run of decimal digits after it, and returns the character after the
    run: no sign, fraction, exponent or suffix is taken. *)
Theorem integer_takes_the_digit_run old input_char run rest fuel :
  forallb digit_char run = true -> stops digit_char rest ->
  hex_prefix input_char (run ++ rest) = false ->
  (length run < fuel)%nat ->
  parse_token fuel (integer_token old) (mkStream (run ++ rest) false)
    input_char =
  Ret (integer_token (add_text (assign_char input_char) run),
       (get (mkStream rest false)).1, (get (mkStream rest false)).2).
Proof.
  intros Hrun Hrest Hx Hf. cbn [parse_token]. unfold integer.parse_token.
  unfold hex_prefix in Hx.
  destruct (input_char =? chr "0").
  - destruct run as [|a run]; [destruct rest as [|c rest]|].
    + destruct fuel as [|fuel]; [lia|]. reflexivity.
    + cbn [app peek eofbit chars]. simpl in Hx. rewrite Hx.
      pose proof (fun s => dec_loop_run [] (c :: rest) fuel s Hrun Hrest Hf)
        as E.
      cbn [app] in E. now rewrite E.
    + cbn [app peek eofbit chars]. simpl in Hx. rewrite Hx.
      pose proof (fun s => dec_loop_run (a :: run) rest fuel s Hrun Hrest Hf)
        as E.
      cbn [app] in E. now rewrite E.
  - now rewrite dec_loop_run.
Qed.

(** The number [2024] before a semicolon, for
    [integer_takes_the_digit_run]. *)
Lemma integer_takes_the_digit_run_witness :
  parse_token 5 (integer_token EmptyString)
    (mkStream (text "024" ++ text ";") false) (chr "2") =
  Ret (integer_token "2024", chr ";", mkStream [] false).
Proof.
  apply (integer_takes_the_digit_run EmptyString (chr "2") (text "024")
           (text ";") 5).
  - reflexivity.
  - reflexivity.
  - reflexivity.
  - simpl. lia.
Defined.

(** X3. After a lead [0] and an [x] or [X], the integer scanner takes that
    letter and the whole run of hexadecimal digits after it, and returns
    the character after the run; the run may be empty, the token then
    holds the bare prefix. *)
Theorem integer_takes_the_hex_run old x run rest fuel :
  (chr x =? chr "X") || (chr x =? chr "x") = true ->
  forallb xdigit_char run = true -> stops xdigit_char rest ->
  (length run < fuel)%nat ->
  parse_token fuel (integer_token old) (mkStream (x :: run ++ rest) false)
    (chr "0") =
  Ret (integer_token (add_text "0" (x :: run)),
       (get (mkStream rest false)).1, (get (mkStream rest false)).2).
Proof.
  intros Hx Hrun Hrest Hf. cbn [parse_token]. unfold integer.parse_token.
  change (chr "0" =? chr "0") with true. cbv iota.
  cbn [peek get eofbit chars]. rewrite Hx.
  rewrite hex_loop_run by assumption. now rewrite add_text_cons.
Qed.

(** The number [0x1F] before a closing parenthesis, for
    [integer_takes_the_hex_run]. *)
Lemma integer_takes_the_hex_run_witness :
  parse_token 4 (integer_token EmptyString)
    (mkStream ("x"%char :: text "1F" ++ text ")") false) (chr "0") =
  Ret (integer_token "0x1F", chr ")", mkStream [] false).
Proof.
  apply (integer_takes_the_hex_run EmptyString "x" (text "1F") (text ")") 4).
  - reflexivity.
  - reflexivity.
  - reflexivity.
  - simpl. lia.
Defined.

(** X4. The whitespace scanner drops the whole run of spaces, tabs,
    vertical tabs and carriage returns that follows the lead character and
    returns the character after the run, the first that is none of these
    four: a line feed and a form feed end the run like any other character.
    Its token records nothing of the characters dropped. *)
Theorem whitespace_drops_the_run lead run rest fuel :
  forallb space_char run = true -> stops space_char rest ->
  (length run < fuel)%nat ->
  parse_token fuel whitespace_token (mkStream (run ++ rest) false) lead =
  Ret (whitespace_token, (get (mkStream rest false)).1,
       (get (mkStream rest false)).2).
Proof.
  intros Hrun Hrest Hf. cbn [parse_token].
  rewrite whitespace_loop_run by assumption.
  now destruct (get (mkStream rest false)).
Qed.

(** Two spaces and a tab before [x], for [whitespace_drops_the_run]. *)
Lemma whitespace_drops_the_run_witness :
  parse_token 4 whitespace_token
    (mkStream ([" "; " "; "009"]%char ++ text "x") false) (chr " ") =
  Ret (whitespace_token, chr "x", mkStream [] false).
Proof.
  apply (whitespace_drops_the_run (chr " ") [" "; " "; "009"]%char
           (text "x") 4).
  - reflexivity.
  - reflexivity.
  - simpl. lia.
Defined.

Section Verbatim.

Lemma literal_loop_verbatim fuel : forall body rest s,
  verbatim "034" body = true -> (length body < fuel)%nat ->
  literal.loop fuel (mkStream (body ++ "034"%char :: rest) false) s =
  Ret (add_text s body, (get (mkStream rest false)).1,
       (get (mkStream rest false)).2).
Proof.
  induction fuel as [|fuel IH]; intros body rest s Hv Hf; [lia|].
  destruct body as [|c body].
  - rewrite add_text_nil. cbn [app literal.loop get eofbit chars].
    change (chr "034" =? backslash) with false.
    change (negb (chr "034" =? dquote) && negb (chr "034" =? EOF)) with false.
    change (chr "034" =? EOF) with false. cbv iota.
    now destruct rest.
  - cbn [app literal.loop get eofbit chars]. cbn [verbatim] in Hv.
    rewrite backslash_eqb, dquote_eqb, chr_not_EOF.
    destruct (Ascii.eqb_spec c "092") as [->|Hc].
    + destruct body as [|d body]; [discriminate|].
      apply andb_prop in Hv as [Hd Hv].
      cbn [app peek get eofbit chars].
      rewrite backslash_eqb, dquote_eqb, Hd.
      rewrite IH by (assumption || (simpl in Hf; lia)).
      change backslash with (chr "092"). now rewrite !add_text_cons.
    + apply andb_prop in Hv as [Hq Hv]. rewrite Hq. cbn [negb andb].
      rewrite IH by (assumption || (simpl in Hf; lia)).
      now rewrite add_text_cons.
Qed.

Lemma constant_loop_verbatim fuel : forall body rest s,
  verbatim "039" body = true -> (length body < fuel)%nat ->
  constant.loop fuel (mkStream (body ++ "039"%char :: rest) false) s =
  Ret (add_text s body, (get (mkStream rest false)).1,
       (get (mkStream rest false)).2).
Proof.
  induction fuel as [|fuel IH]; intros body rest s Hv Hf; [lia|].
  destruct body as [|c body].
  - rewrite add_text_nil. cbn [app constant.loop get eofbit chars].
    change (chr "039" =? backslash) with false.
    change (negb (chr "039" =? squote)) with false. cbv iota.
    now destruct rest.
  - cbn [app constant.loop get eofbit chars]. cbn [verbatim] in Hv.
    rewrite backslash_eqb, squote_eqb.
    destruct (Ascii.eqb_spec c "092") as [->|Hc].
    + destruct body as [|d body]; [discriminate|].
      apply andb_prop in Hv as [Hd Hv].
      cbn [app peek get eofbit chars].
      rewrite backslash_eqb, squote_eqb, Hd.
      rewrite IH by (assumption || (simpl in Hf; lia)).
      change backslash with (chr "092"). now rewrite !add_text_cons.
    + apply andb_prop in Hv as [Hq Hv]. rewrite Hq. cbn [negb].
      rewrite IH by (assumption || (simpl in Hf; lia)).
      now rewrite add_text_cons.
Qed.

End Verbatim.

(** X5. A string literal written on one line, in whose body every
    backslash is followed by the double quote or a backslash and the double
    quote stands only after a backslash, is kept character for character,
    backslashes included: the scanner replaces the text of its object by
    the body, extracts the closing quote and returns the character after
    it. *)
Theorem literal_body_is_kept_verbatim old lead body rest fuel :
  verbatim "034" body = true -> "010"%char ∉ body ->
  (length body < fuel)%nat ->
  parse_token fuel (literal_token old)
    (mkStream (body ++ "034"%char :: rest) false) lead =
  Ret (literal_token (string_of_list_ascii body),
       (get (mkStream rest false)).1, (get (mkStream rest false)).2).
Proof.
  intros Hv _ Hf. cbn [parse_token]. unfold literal.parse_token.
  now rewrite literal_loop_verbatim.
Qed.

(** The literal body [ab], backslash, double quote, [c], for
    [literal_body_is_kept_verbatim]. *)
Lemma literal_body_is_kept_verbatim_witness :
  parse_token 6 (literal_token EmptyString)
    (mkStream (["a"; "b"; "092"; "034"; "c"]%char ++ "034"%char :: text ";")
       false) dquote =
  Ret (literal_token (string_of_list_ascii ["a"; "b"; "092"; "034"; "c"]%char),
       chr ";", mkStream [] false).
Proof.
  apply (literal_body_is_kept_verbatim EmptyString dquote
           ["a"; "b"; "092"; "034"; "c"]%char (text ";") 6).
  - reflexivity.
  - repeat (apply not_elem_of_cons; split; [discriminate|]).
    apply not_elem_of_nil.
  - simpl. lia.
Defined.

(** X6. A char literal in whose body every backslash is followed by the
    single quote or a backslash, and the single quote stands only after a
    backslash, is kept character for character; the body may hold any
    number of characters. *)
Theorem constant_body_is_kept_verbatim old lead body rest fuel :
  verbatim "039" body = true -> (length body < fuel)%nat ->
  parse_token fuel (constant_token old)
    (mkStream (body ++ "039"%char :: rest) false) lead =
  Ret (constant_token (string_of_list_ascii body),
       (get (mkStream rest false)).1, (get (mkStream rest false)).2).
Proof.
  intros Hv Hf. cbn [parse_token]. unfold constant.parse_token.
  now rewrite constant_loop_verbatim.
Qed.

(** The char literal body [abc], for [constant_body_is_kept_verbatim]. *)
Lemma constant_body_is_kept_verbatim_witness :
  parse_token 4 (constant_token EmptyString)
    (mkStream (text "abc" ++ "039"%char :: text ";") false) squote =
  Ret (constant_token "abc", chr ";", mkStream [] false).
Proof.
  apply (constant_body_is_kept_verbatim EmptyString squote (text "abc")
           (text ";") 4).
  - reflexivity.
  - simpl. lia.
Defined.
Section PunctuationShape.

Lemma add_text_one s a : add_text s [a] = append_char s (chr a).
Proof. now rewrite <- add_text_cons, add_text_nil. Qed.

Lemma add_text_two s a b :
  add_text s [a; b] = append_char (append_char s (chr a)) (chr b).
Proof. now rewrite <- !add_text_cons, add_text_nil. Qed.

(** Turns the character constants of the hypotheses into their codes. *)
Ltac char_codes_in_hyps :=
  repeat match goal with
         | H : context [chr (Ascii ?a ?b ?c ?d ?e ?f ?g ?h)] |- _ =>
           let v := eval vm_compute in (chr (Ascii a b c d e f g h)) in
           change (chr (Ascii a b c d e f g h)) with v in H
         end.

Ltac split_tests :=
  repeat (match goal with
          | |- context [if ?b then _ else _] => destruct b eqn:?
          end; cbv beta iota zeta; cbn [peek get eofbit chars fst snd]).

Ltac no_extension :=
  exists [], []; split;
  [now rewrite add_text_nil | split; [simpl; lia | now left]].

Ltac one_extension a :=
  exists [a]; eexists; split;
  [now rewrite add_text_one
  | split; [simpl; lia | right; split; reflexivity]].

Ltac two_extensions a b :=
  exists [a; b]; eexists; split;
  [now rewrite add_text_two
  | split; [simpl; lia | right; split; reflexivity]].

Ltac impossible :=
  exfalso; unfold punctuation.either, punctuation.one, EOF in *;
  char_codes_in_hyps; lia.

(** X7. Whatever the stream holds, the punctuation string is the lead
    character followed by at most two characters, and these are the
    characters that follow the lead in the stream, in their order: the
    token has one, two or three characters. *)
Theorem punctuation_lexeme_shape stream input_char :
  exists ext rest,
    (punctuation.parse_token stream input_char).1.1 =
      add_text (assign_char input_char) ext /\
    (length ext <= 2)%nat /\
    (ext = [] \/ (eofbit stream = false /\ chars stream = ext ++ rest)).
Proof.
  destruct stream as [l e].
  unfold punctuation.parse_token, punctuation.switch, punctuation.extend,
    punctuation.take.
  destruct e; [|destruct l as [|a [|b r]]];
    cbn [peek get eofbit chars].
  - split_tests; cbn [fst snd]; first [no_extension | impossible].
  - split_tests; cbn [fst snd]; first [no_extension | impossible].
  - split_tests; cbn [fst snd];
      first [no_extension | one_extension a | impossible].
  - split_tests; try (destruct r); cbn [fst snd];
      first [no_extension | one_extension a | two_extensions a b
            | impossible].
Qed.

End PunctuationShape.

(** * How far a run goes

    Every scanner extracts at least one character, or meets the end of
    input, each time it returns; of the loops, only the one of the char
    literal goes on past the end of the input. *)

Section Advance.

Local Open Scope nat_scope.

Lemma clean_head a l e : clean (mkStream (a :: l) e) -> chr a <> squote.
Proof.
  unfold clean. cbn [chars]. intros H E.
  apply not_elem_of_cons in H as [Ha _].
  apply (chr_inj a "039") in E. congruence.
Qed.

Lemma clean_tail a l e1 e2 :
  clean (mkStream (a :: l) e1) -> clean (mkStream l e2).
Proof.
  unfold clean. cbn [chars]. intros H.
  now apply not_elem_of_cons in H as [_ Hl].
Qed.

Lemma clean_nil e : clean (mkStream [] e).
Proof. unfold clean. cbn [chars]. apply not_elem_of_nil. Qed.

Lemma EOF_not_squote : EOF <> squote.
Proof. discriminate. Qed.

(** What a stream without single quote tells of its first characters. *)
Ltac clean_facts :=
  repeat match goal with
         | H : clean (mkStream (?a :: ?l) ?e) |- _ =>
           lazymatch goal with
           | _ : chr a <> squote |- _ => fail
           | _ =>
             pose proof (clean_head a l e H);
             pose proof (clean_tail a l e false H);
             pose proof (clean_tail a l e true H)
           end
         end.

(** Closes the goals on streams whose first characters are known. *)
Ltac stream_facts :=
  unfold advances, keeps, returned; cbn [fst snd room eofbit chars length];
  repeat match goal with
         | |- _ /\ _ => split
         | |- clean _ -> _ => intros ?
         end;
  clean_facts;
  try assumption; try apply clean_nil; try apply EOF_not_squote; try lia.

(** The same from what the loop gives on the rest of the stream. *)
Ltac use_IH IH :=
  unfold advances, keeps, returned in IH;
  cbn [fst snd room eofbit chars length] in IH;
  stream_facts; intuition (try lia).

(** Settles the tests that hold no variable. *)
Ltac decide_tests :=
  repeat match goal with
         | |- context [if ?b then _ else _] =>
           let v := eval vm_compute in b in
           match v with
           | true => change b with true; cbv iota
           | false => change b with false; cbv iota
           end
         end.

Ltac split_on_tests :=
  repeat (decide_tests;
          match goal with
          | |- context [if ?b then _ else _] => destruct b eqn:?
          end;
          cbv beta iota zeta; cbn [peek get eofbit chars fst snd]);
  decide_tests.

(** A leaf of a loop body: the loop goes on, or the body has returned. *)
Ltac loop_leaf IH :=
  first
    [ match goal with
      | |- advances _ _ _ (?loop ?f ?s ?str) =>
        specialize (IH s str);
        destruct (loop f s str) as [[[? ?] ?]| | |]; use_IH IH
      end
    | stream_facts; try exact I ].

Ltac loop_advances loop fuel :=
  let IH := fresh "IH" in
  induction fuel as [|fuel IH]; intros [l e] str; [simpl; try lia; exact I|];
  destruct e; [|destruct l as [|a [|b r]]];
  cbn [loop get eofbit chars]; split_on_tests; loop_leaf IH.

Lemma symbol_loop_advances fuel : forall s str,
  advances returned (fuel <= room s) s (symbol.loop fuel s str).
Proof. loop_advances symbol.loop fuel. Qed.

Lemma hex_loop_advances fuel : forall s str,
  advances returned (fuel <= room s) s (integer.hex_loop fuel s str).
Proof. loop_advances integer.hex_loop fuel. Qed.

Lemma dec_loop_advances fuel : forall s str,
  advances returned (fuel <= room s) s (integer.dec_loop fuel s str).
Proof. loop_advances integer.dec_loop fuel. Qed.

Lemma literal_loop_advances fuel : forall s str,
  advances returned (fuel <= room s) s (literal.loop fuel s str).
Proof. loop_advances literal.loop fuel. Qed.

Lemma constant_loop_advances fuel : forall s str,
  advances returned True s (constant.loop fuel s str).
Proof. loop_advances constant.loop fuel. Qed.

Lemma whitespace_loop_advances fuel : forall s,
  advances id (fuel <= room s) s (whitespace.loop fuel s).
Proof.
  induction fuel as [|fuel IH]; intros [l e]; [simpl; lia|].
  destruct e; [|destruct l as [|a [|b r]]];
    cbn [whitespace.loop get eofbit chars]; split_on_tests;
    first
      [ match goal with
        | |- advances _ _ _ (whitespace.loop ?f ?s) =>
          specialize (IH s);
          destruct (whitespace.loop f s) as [[? ?]| | |];
          unfold id in *; use_IH IH
        end
      | unfold id; stream_facts ].
Qed.

(** A leaf of a body that ends in one of the loops. *)
Ltac call_leaf :=
  first
    [ match goal with
      | |- advances _ _ _ (integer.hex_loop ?f ?s ?str) =>
        let H := fresh "H" in
        pose proof (hex_loop_advances f s str) as H;
        destruct (integer.hex_loop f s str) as [[[? ?] ?]| | |]; use_IH H
      | |- advances _ _ _ (integer.dec_loop ?f ?s ?str) =>
        let H := fresh "H" in
        pose proof (dec_loop_advances f s str) as H;
        destruct (integer.dec_loop f s str) as [[[? ?] ?]| | |]; use_IH H
      end
    | stream_facts; try exact I ].

Lemma integer_advances fuel s c :
  advances returned (fuel <= room s) s (integer.parse_token fuel s c).
Proof.
  destruct s as [l e]. unfold integer.parse_token.
  destruct e; [|destruct l as [|a [|b r]]];
    split_on_tests; call_leaf.
Qed.

Lemma get_later s :
  (room (get s).2 <= Nat.pred (room s)) /\
  (clean s -> (get s).1 <> squote /\ clean (get s).2).
Proof.
  destruct s as [l e].
  destruct e; [|destruct l as [|a r]]; cbn [get eofbit chars]; stream_facts.
Qed.

Lemma peek_later s :
  (room (peek s).2 <= room s) /\ (clean s -> clean (peek s).2).
Proof.
  destruct s as [l e].
  destruct e; [|destruct l as [|a r]]; cbn [peek eofbit chars]; stream_facts.
Qed.

Lemma take_later s str :
  (room (punctuation.take s str).1.2 <= room s) /\
  (clean s -> clean (punctuation.take s str).1.2).
Proof.
  unfold punctuation.take. pose proof (get_later s) as [H1 H2].
  destruct (get s) as [c s']. cbn [fst snd] in *. intuition lia.
Qed.

Lemma extend_later test s str :
  (room (punctuation.extend test s str).1.2 <= room s) /\
  (clean s -> clean (punctuation.extend test s str).1.2).
Proof.
  unfold punctuation.extend. pose proof (peek_later s) as [H1 H2].
  destruct (peek s) as [c s']. cbn [fst snd] in *.
  destruct (test c); [|cbn [fst snd]; intuition lia].
  pose proof (take_later s' str) as [H3 H4]. intuition lia.
Qed.

Lemma switch_later s c str :
  (room (punctuation.switch s c str).1 <= room s) /\
  (clean s -> clean (punctuation.switch s c str).1).
Proof.
  unfold punctuation.switch. cbv zeta.
  repeat match goal with
         | |- context [punctuation.extend ?t ?s ?str] =>
           let H := fresh "H" in
           pose proof (extend_later t s str) as H;
           destruct (punctuation.extend t s str) as [[? ?] ?];
           cbn [fst snd] in H
         | |- context [punctuation.take ?s ?str] =>
           let H := fresh "H" in
           pose proof (take_later s str) as H;
           destruct (punctuation.take s str) as [[? ?] ?];
           cbn [fst snd] in H
         | |- context [if ?b then _ else _] => destruct b
         end;
    cbn [fst snd]; intuition lia.
Qed.

Lemma punctuation_advances s c :
  advances returned False s (Ret (punctuation.parse_token s c)).
Proof.
  unfold punctuation.parse_token.
  pose proof (switch_later s c (assign_char c)) as [H1 H2].
  destruct (punctuation.switch s c (assign_char c)) as [s1 str].
  cbn [fst snd] in *.
  pose proof (get_later s1) as [H3 H4]. destruct (get s1) as [c' s2].
  unfold advances, returned. cbn [fst snd] in *. intuition lia.
Qed.

Lemma get_advances s :
  advances id False s (Ret (get s)).
Proof.
  destruct s as [l e]. unfold id.
  destruct e; [|destruct l as [|a r]]; cbn [get eofbit chars]; stream_facts.
Qed.

Lemma comment_loop_keeps fuel : forall pc s,
  keeps (fuel <= room s) s (comment_loop fuel pc s).
Proof.
  induction fuel as [|fuel IH]; intros pc [l e]; [simpl; lia|].
  destruct e; [|destruct l as [|a r]];
    cbn [comment_loop get eofbit chars]; split_on_tests;
    first
      [ match goal with
        | |- keeps _ _ (comment_loop ?f ?c ?s) =>
          specialize (IH c s); destruct (comment_loop f c s); use_IH IH
        end
      | stream_facts ].
Qed.

Ltac split_goal :=
  repeat match goal with
         | |- _ /\ _ => split
         | |- clean _ -> _ => intros ?
         end;
  clean_facts.

Lemma indent_loop_keeps fuel : forall g spaces s,
  match indent_loop fuel g spaces s with
  | Ret (n, s') =>
    room s' <= room s /\ (clean s -> clean s') /\ (spaces <= n)%Z
  | OutOfFuel => fuel <= room s
  | _ => False
  end.
Proof.
  induction fuel as [|fuel IH]; intros g spaces [l e]; [simpl; lia|].
  destruct e; [|destruct l as [|a r]];
    cbn [indent_loop peek get eofbit chars]; split_on_tests;
    first
      [ match goal with
        | |- context [indent_loop ?f ?c ?n ?s] =>
          specialize (IH c n s);
          destruct (indent_loop f c n s) as [[? ?]| | |];
          cbn [room eofbit chars length] in *; try contradiction;
          split_goal; intuition lia
        end
      | cbn [room eofbit chars length]; split_goal;
        try assumption; try apply clean_nil; lia ].
Qed.

Lemma measure_indent_keeps fuel s :
  match measure_indent fuel s with
  | Ret (n, s') => room s' <= room s /\ (clean s -> clean s') /\ (0 <= n)%Z
  | OutOfFuel => fuel <= room s
  | _ => False
  end.
Proof.
  destruct s as [l e]. unfold measure_indent.
  destruct e; [|destruct l as [|a r]];
    cbn [peek get eofbit chars]; split_on_tests;
    first
      [ match goal with
        | |- context [indent_loop ?f ?c ?n ?s] =>
          pose proof (indent_loop_keeps f c n s) as IH;
          destruct (indent_loop f c n s) as [[? ?]| | |];
          cbn [room eofbit chars length] in *; try contradiction;
          split_goal; intuition lia
        end
      | cbn [room eofbit chars length]; split_goal;
        try assumption; try apply clean_nil; lia ].
Qed.

(** Every virtual call but the one of the EOF token moves on; only the
    one of the char literal may fail to return. *)
Lemma parse_token_advances fuel t s c :
  token_type t <> t_eof ->
  advances returned (token_type t = t_constant \/ fuel <= room s) s
    (parse_token fuel t s c).
Proof.
  intros Ht. destruct t; cbn [parse_token]; try (now contradiction Ht).
  - pose proof (get_later s) as H. destruct (get s).
    unfold advances, returned. cbn [fst snd] in *. intuition lia.
  - unfold symbol.parse_token.
    pose proof (symbol_loop_advances fuel s (assign_char c)) as H.
    destruct (symbol.loop fuel s _) as [[[? ?] ?]| | |];
      unfold advances, returned in *; cbn [bind fst snd] in *; intuition.
  - pose proof (integer_advances fuel s c) as H.
    destruct (integer.parse_token fuel s c) as [[[? ?] ?]| | |];
      unfold advances, returned in *; cbn [bind fst snd] in *; intuition.
  - unfold literal.parse_token.
    pose proof (literal_loop_advances fuel s EmptyString) as H.
    destruct (literal.loop fuel s _) as [[[? ?] ?]| | |];
      unfold advances, returned in *; cbn [bind fst snd] in *; intuition.
  - unfold constant.parse_token.
    pose proof (constant_loop_advances fuel s EmptyString) as H.
    destruct (constant.loop fuel s _) as [[[? ?] ?]| | |];
      unfold advances, returned in *; cbn [bind fst snd] in *; intuition.
  - pose proof (punctuation_advances s c) as H.
    destruct (punctuation.parse_token s c) as [[? ?] ?].
    unfold advances, returned in *. cbn [fst snd] in *. intuition.
  - pose proof (whitespace_loop_advances fuel s) as H.
    destruct (whitespace.loop fuel s) as [[? ?]| | |];
      unfold advances, returned, id in *; cbn [bind fst snd] in *; intuition.
  - pose proof (get_later s) as H. destruct (get s).
    unfold advances, returned. cbn [fst snd] in *. intuition lia.
  - pose proof (get_later s) as H. destruct (get s).
    unfold advances, returned. cbn [fst snd] in *. intuition lia.
  - pose proof (get_later s) as H. destruct (get s).
    unfold advances, returned. cbn [fst snd] in *. intuition lia.
Qed.

(** *** Strings that only grow *)

Lemma append_char_nonempty s c : append_char s c <> EmptyString.
Proof. destruct s; discriminate. Qed.

Ltac loop_nonempty loop fuel :=
  let IH := fresh "IH" in
  induction fuel as [|fuel IH]; intros s str r c s' H Hs; [discriminate|];
  cbn [loop] in H; destruct (get s) as [c0 s0];
  match type of H with
  | (if ?b then _ else _) = _ => destruct b
  end;
  [ eapply IH; [exact H | apply append_char_nonempty]
  | now inversion H; subst ].

Lemma symbol_loop_nonempty fuel : forall s str r c s',
  symbol.loop fuel s str = Ret (r, c, s') ->
  str <> EmptyString -> r <> EmptyString.
Proof. loop_nonempty symbol.loop fuel. Qed.

Lemma hex_loop_nonempty fuel : forall s str r c s',
  integer.hex_loop fuel s str = Ret (r, c, s') ->
  str <> EmptyString -> r <> EmptyString.
Proof. loop_nonempty integer.hex_loop fuel. Qed.

Lemma dec_loop_nonempty fuel : forall s str r c s',
  integer.dec_loop fuel s str = Ret (r, c, s') ->
  str <> EmptyString -> r <> EmptyString.
Proof. loop_nonempty integer.dec_loop fuel. Qed.

Lemma integer_nonempty fuel s c r c' s' :
  integer.parse_token fuel s c = Ret (r, c', s') -> r <> EmptyString.
Proof.
  unfold integer.parse_token.
  repeat match goal with
         | |- context [if ?b then _ else _] => destruct b
         | |- context [let '(_, _) := ?x in _] => destruct x
         end; intros H;
    first [ eapply hex_loop_nonempty; [exact H | apply append_char_nonempty]
          | eapply dec_loop_nonempty; [exact H | discriminate] ].
Qed.

Lemma take_nonempty s str : (punctuation.take s str).2 <> EmptyString.
Proof.
  unfold punctuation.take. destruct (get s). apply append_char_nonempty.
Qed.

Lemma extend_nonempty test s str :
  str <> EmptyString -> (punctuation.extend test s str).2 <> EmptyString.
Proof.
  intros Hs. unfold punctuation.extend. destruct (peek s) as [c s1].
  destruct (test c); [apply take_nonempty | exact Hs].
Qed.

Lemma switch_nonempty s c str :
  str <> EmptyString -> (punctuation.switch s c str).2 <> EmptyString.
Proof.
  intros Hs. unfold punctuation.switch. cbv zeta.
  repeat match goal with
         | |- context [punctuation.extend ?t ?s ?str] =>
           let H := fresh "H" in
           assert (H : str <> EmptyString) by assumption;
           apply (extend_nonempty t s) in H;
           destruct (punctuation.extend t s str) as [[? ?] ?];
           cbn [fst snd] in H
         | |- context [punctuation.take ?s ?str] =>
           let H := fresh "H" in
           pose proof (take_nonempty s str) as H;
           destruct (punctuation.take s str) as [[? ?] ?];
           cbn [fst snd] in H
         | |- context [if ?b then _ else _] => destruct b
         end;
    cbn [fst snd]; assumption.
Qed.

(** A virtual call leaves a well-formed object behind. *)
Lemma parse_token_ok fuel t s c t' c' s' :
  levels_ok t -> parse_token fuel t s c = Ret (t', c', s') -> token_ok t'.
Proof.
  intros Hl. destruct t; cbn [parse_token];
    repeat match goal with
           | |- context [bind ?m _] =>
             let E := fresh "E" in
             destruct m as [x| | |] eqn:E; cbn [bind]
           | x : (_ * _)%type |- _ => destruct x
           | |- context [let '(_, _) := ?x in _] =>
             let E := fresh "E" in destruct x eqn:E
           end;
    intros H; inversion H; subst; cbn [token_ok]; try exact I;
    try exact Hl.
  - unfold symbol.parse_token in *.
    eapply symbol_loop_nonempty; [eassumption | discriminate].
  - eapply integer_nonempty; eassumption.
  - unfold punctuation.parse_token in *.
    pose proof (switch_nonempty s c (assign_char c) ltac:(discriminate)) as Hn.
    destruct (punctuation.switch s c (assign_char c)) as [s1 str].
    destruct (get s1). inversion E; subst. exact Hn.
Qed.

Lemma token_ok_levels t : token_ok t -> levels_ok t.
Proof. destruct t; cbn; auto. Qed.

(** *** One turn of the inner loop *)

(** What [classify] does to the frame: it never moves the stream back nor
    touches the list, and either allocates one object, of a class the
    driver instantiates, or, on a character of no class, nothing. *)
Lemma classify_cases fuel f :
  match classify fuel f with
  | Ret f' =>
    room (source_stream f') <= room (source_stream f) /\
    (clean (source_stream f) -> clean (source_stream f')) /\
    input_char f' = input_char f /\ token_list f' = token_list f /\
    ((0 <= current_indent f)%Z -> (0 <= current_indent f')%Z) /\
    ((heap f' = heap f /\ token f' = token f /\
      classified (input_char f) = false) \/
     (exists t, heap f' = heap f ++ [t] /\
                token f' = Some (length (heap f)) /\ scanned_class t /\
                (token_type t = t_constant -> input_char f = squote) /\
                ((0 <= current_indent f)%Z -> levels_ok t)))
  | OutOfFuel => fuel <= room (source_stream f)
  | _ => False
  end.
Proof.
  unfold classify.
  assert (Hnew : forall t f0,
             scanned_class t ->
             (token_type t = t_constant -> input_char f = squote) ->
             ((0 <= current_indent f)%Z -> levels_ok t) ->
             heap f0 = heap f -> token_list f0 = token_list f ->
             input_char f0 = input_char f ->
             room (source_stream f0) <= room (source_stream f) ->
             (clean (source_stream f) -> clean (source_stream f0)) ->
             ((0 <= current_indent f)%Z -> (0 <= current_indent f0)%Z) ->
             room (source_stream (new t f0)) <= room (source_stream f) /\
             (clean (source_stream f) -> clean (source_stream (new t f0))) /\
             input_char (new t f0) = input_char f /\
             token_list (new t f0) = token_list f /\
             ((0 <= current_indent f)%Z ->
              (0 <= current_indent (new t f0))%Z) /\
             ((heap (new t f0) = heap f /\ token (new t f0) = token f /\
               classified (input_char f) = false) \/
              (exists t', heap (new t f0) = heap f ++ [t'] /\
                          token (new t f0) = Some (length (heap f)) /\
                          scanned_class t' /\
                          (token_type t' = t_constant ->
                           input_char f = squote) /\
                          ((0 <= current_indent f)%Z -> levels_ok t')))).
  { intros t f0 Ht Hc Hlv Hh Hl Hi Hr Hcl Hci. cbn [new source_stream
      input_char token_list current_indent heap token].
    rewrite Hh. repeat split; try assumption.
    right. exists t. repeat split; try assumption; apply Ht. }
  destruct (input_char f =? chr "#")%Z eqn:E1.
  { pose proof (peek_later (source_stream f)) as [Hp1 Hp2].
    destruct (peek (source_stream f)) as [pc s1]. cbn [fst snd] in *.
    pose proof (comment_loop_keeps fuel pc s1) as Hk.
    destruct (comment_loop fuel pc s1) as [s2| | |]; cbn [bind keeps] in *;
      try contradiction; [|lia].
    apply Hnew; cbn; try (split; discriminate); try discriminate;
      try reflexivity; intuition lia. }
  destruct (isalpha (input_char f) || (input_char f =? chr "_")%Z) eqn:E2.
  { apply Hnew; cbn; try (split; discriminate); try discriminate;
      try reflexivity; intuition lia. }
  destruct (input_char f =? LF)%Z eqn:E3.
  { pose proof (measure_indent_keeps fuel (source_stream f)) as Hk.
    destruct (measure_indent fuel (source_stream f)) as [[n s1]| | |];
      cbn [bind] in *; try contradiction; [|lia].
    destruct Hk as (Hk1 & Hk2 & Hk3).
    cbn [current_indent set_stream].
    destruct (current_indent f <? n)%Z eqn:E4;
      [|destruct (n <? current_indent f)%Z eqn:E5];
      apply Hnew; cbn; try (split; discriminate); try discriminate;
        try reflexivity; try assumption; try lia. }
  destruct (isspace (input_char f)) eqn:E4.
  { apply Hnew; cbn; try (split; discriminate); try discriminate;
      try reflexivity; intuition lia. }
  destruct (input_char f =? dquote)%Z eqn:E5.
  { apply Hnew; cbn; try (split; discriminate); try discriminate;
      try reflexivity; intuition lia. }
  destruct (input_char f =? squote)%Z eqn:E6.
  { apply Hnew; cbn; try (split; discriminate); try reflexivity;
      try (intros _; now apply Z.eqb_eq); intuition lia. }
  destruct (isdigit (input_char f)) eqn:E7.
  { apply Hnew; cbn; try (split; discriminate); try discriminate;
      try reflexivity; intuition lia. }
  destruct (ispunct (input_char f)) eqn:E8.
  { apply Hnew; cbn; try (split; discriminate); try discriminate;
      try reflexivity; intuition lia. }
  repeat split; try reflexivity; try lia; try (intros; assumption).
  left. repeat split. unfold classified.
  apply orb_false_elim in E2 as [E2 E2'].
  now rewrite E1, E2, E2', E3, E4, E5, E6, E7, E8.
Qed.

Lemma insert_last {A : Type} (l : list A) (x y : A) :
  <[length l := y]> (l ++ [x]) = l ++ [y].
Proof.
  rewrite insert_app_r_alt by lia. now rewrite Nat.sub_diag.
Qed.

(** What one turn does to a sound frame. *)
Lemma iteration_facts fuel f :
  sound f ->
  match iteration fuel f with
  | Ret (inl f') =>
    sound f' /\ valid_token f' /\
    room (source_stream f') <= Nat.pred (room (source_stream f)) /\
    length (token_list f') = S (length (token_list f)) /\
    (quiet f -> quiet f') /\ (tidy f -> tidy f')
  | Ret (inr f') =>
    sound f' /\ token f = None /\ classified (input_char f) = false /\
    token_list f' = token_list f /\ (tidy f -> tidy f')
  | Exit _ => True
  | Undef => ~ valid_token f /\ classified (input_char f) = false
  | OutOfFuel => quiet f -> fuel <= room (source_stream f)
  end.
Proof.
  intros Hf. pose proof (iteration_sound fuel f) as Hsound.
  unfold iteration in *.
  pose proof (classify_cases fuel f) as Hc.
  pose proof (classify_sound fuel f) as Hs1.
  destruct (classify fuel f) as [f1| | |]; cbn [bind] in *;
    try contradiction; [|intros _; exact Hc].
  specialize (Hs1 f1 eq_refl Hf).
  destruct Hc as (Hr & Hcl & Hi & Hl & Hci & Hcase).
  assert (Hobj : forall p obj,
             token f1 = Some p -> heap f1 !! p = Some obj ->
             token_type obj <> t_eof /\
             (quiet f -> token_type obj <> t_constant) /\
             (tidy f -> levels_ok obj) /\
             (forall obj',
                token_type obj' = token_type obj ->
                (quiet f ->
                 Forall (fun t => token_type t <> t_constant)
                   (<[p := obj']> (heap f1))) /\
                (tidy f -> token_ok obj' ->
                 Forall token_ok (<[p := obj']> (heap f1))))).
  { intros p obj Hp Ho. destruct Hcase as [(Hh & Ht & _)|(t & Hh & Ht & Hsc & Hk & Hlv)].
    - rewrite Hh in *.
      pose proof (Forall_lookup_1 _ _ _ _ (proj1 Hf) Ho) as [Hne _].
      split; [exact Hne|]. split; [|split].
      + intros (_ & _ & Hq). exact (Forall_lookup_1 _ _ _ _ Hq Ho).
      + intros [Ht1 _]. apply token_ok_levels.
        exact (Forall_lookup_1 _ _ _ _ Ht1 Ho).
      + intros obj' Hty. split.
        * intros (_ & _ & Hq). apply Forall_insert; [exact Hq|].
          rewrite Hty. exact (Forall_lookup_1 _ _ _ _ Hq Ho).
        * intros [Ht1 _] Hok. now apply Forall_insert.
    - rewrite Ht in Hp. inversion Hp; subst p. rewrite Hh in *.
      rewrite list_lookup_middle in Ho by reflexivity.
      inversion Ho; subst obj.
      split; [apply Hsc|]. split; [|split].
      + intros (_ & Hq & _) E. now apply Hq, Hk.
      + intros [_ Ht1]. now apply Hlv.
      + intros obj' Hty. rewrite insert_last. split.
        * intros (_ & Hq1 & Hq). apply Forall_app. split; [exact Hq|].
          constructor; [|constructor]. rewrite Hty. intros E.
          now apply Hq1, Hk.
        * intros [Ht1 _] Hok. apply Forall_app. split; [exact Ht1|].
          constructor; [exact Hok | constructor]. }
  destruct (token f1) as [p|] eqn:Hp.
  2:{ destruct Hcase as [(Hh & Ht & Hun)|(t & _ & Ht & _)]; [|discriminate].
      split; [exact Hs1|]. split; [congruence|]. split; [exact Hun|].
      split; [exact Hl|]. intros [Ht1 Ht2]. split; [now rewrite Hh|auto]. }
  destruct (heap f1 !! p) as [obj|] eqn:Ho.
  2:{ destruct Hcase as [(Hh & Ht & Hun)|(t & Hh & Ht & _)].
      - split; [|exact Hun]. intros (p' & Hp' & Hlt).
        assert (p' = p) by congruence. subst p'.
        rewrite <- Hh in Hlt. apply lookup_lt_is_Some_2 in Hlt.
        rewrite Ho in Hlt. now destruct Hlt.
      - assert (p = length (heap f)) by congruence. subst p.
        rewrite Hh in Ho.
        rewrite list_lookup_middle in Ho by reflexivity. discriminate. }
  destruct (Hobj p obj eq_refl Ho) as (Hne & Hq & Hlv & Hins).
  pose proof (parse_token_advances fuel obj (source_stream f1) (input_char f1)
                Hne) as Ha.
  pose proof (parse_token_type fuel obj (source_stream f1) (input_char f1))
    as Hty.
  pose proof (parse_token_ok fuel obj (source_stream f1) (input_char f1))
    as Hok.
  destruct (parse_token fuel obj (source_stream f1) (input_char f1))
    as [[[obj' c] s']| | |]; cbn [bind advances returned fst snd] in *.
  - specialize (Hsound _ eq_refl Hf). cbn in Hsound.
    specialize (Hty _ _ _ eq_refl). destruct (Hins obj' Hty) as [Hi1 Hi2].
    destruct Ha as [Ha1 Ha2].
    split; [exact Hsound|]. split; [|split; [|split; [|split]]].
    + exists p. cbn. split; [reflexivity|]. rewrite length_insert.
      eapply lookup_lt_Some; eassumption.
    + cbn. lia.
    + cbn. rewrite length_app, Hl. simpl. lia.
    + intros Hqf. pose proof Hqf as (Hq1 & Hq2 & Hq3).
      destruct (Ha2 (Hcl Hq1)) as [Hc1 Hc2].
      split; [exact Hc2|]. split; [exact Hc1|]. now apply Hi1.
    + intros Htf. split; cbn; [|apply Hci, Htf].
      apply Hi2; [exact Htf|]. eapply Hok; [now apply Hlv | reflexivity].
  - exact I.
  - contradiction.
  - intros Hqf. destruct Ha as [Ha|Ha]; [now apply Hq in Ha | lia].
Qed.

(** *** The two loops of the driver *)

Lemma inner_loop_facts fuel : forall f,
  sound f ->
  match inner_loop fuel f with
  | Ret (inl f') =>
    sound f' /\ eofbit (source_stream f') = true /\
    length (token_list f') + room (source_stream f') <=
      length (token_list f) + room (source_stream f) /\
    (tidy f -> tidy f')
  | Ret (inr f') =>
    sound f' /\ token_list f' = token_list f /\ (tidy f -> tidy f') /\
    eofbit (source_stream f) = false /\
    classified (input_char f) = false /\ ~ valid_token f
  | Exit _ => True
  | Undef =>
    eofbit (source_stream f) = false /\
    classified (input_char f) = false /\ ~ valid_token f
  | OutOfFuel => quiet f -> fuel <= room (source_stream f) + 1
  end.
Proof.
  induction fuel as [|fuel IH]; intros f Hf; [intros _; lia|].
  rewrite inner_loop_S. destruct (eofbit (source_stream f)) eqn:He.
  { split; [exact Hf|]. split; [exact He|]. split; [lia | auto]. }
  assert (Hroom : room (source_stream f) = S (length (chars (source_stream f))))
    by (unfold room; now rewrite He).
  pose proof (iteration_facts fuel f Hf) as Hi.
  destruct (iteration fuel f) as [[f1|f1]| | |]; cbn [bind].
  - destruct Hi as (Hs1 & Hv1 & Hr1 & Hl1 & Hq1 & Ht1).
    specialize (IH f1 Hs1).
    destruct (inner_loop fuel f1) as [[f2|f2]| | |].
    + destruct IH as (Hs2 & He2 & Hl2 & Ht2). split; [exact Hs2|].
      split; [exact He2|]. split; [lia | auto].
    + destruct IH as (_ & _ & _ & _ & _ & Hn). contradiction.
    + exact I.
    + destruct IH as (_ & _ & Hn). contradiction.
    + intros Hq. specialize (IH (Hq1 Hq)). lia.
  - destruct Hi as (Hs1 & Hn & Hun & Hl1 & Ht1).
    split; [exact Hs1|]. split; [exact Hl1|]. split; [exact Ht1|].
    split; [reflexivity|]. split; [exact Hun|].
    intros (p & Hp & _). congruence.
  - exact I.
  - destruct Hi as [Hn Hun]. split; [reflexivity|]. split; [exact Hun|].
    exact Hn.
  - intros Hq. specialize (Hi Hq). lia.
Qed.

Lemma sound_push_eof_tidy f : tidy f -> tidy (push_eof f).
Proof.
  intros [Ht Hc]. split; [|exact Hc]. cbn. apply Forall_app.
  split; [exact Ht|]. constructor; [exact I | constructor].
Qed.

Lemma outer_loop_facts fuel f :
  sound f ->
  match outer_loop fuel f with
  | Ret (true, f') =>
    length (token_list f') <=
      length (token_list f) + Nat.max 1 (room (source_stream f)) /\
    (tidy f -> tidy f')
  | Ret (false, f') =>
    sound f' /\ token_list f' = token_list f /\ (tidy f -> tidy f') /\
    eofbit (get (source_stream f)).2 = false /\
    classified (get (source_stream f)).1 = false /\ ~ valid_token f
  | Exit _ => True
  | Undef =>
    eofbit (get (source_stream f)).2 = false /\
    classified (get (source_stream f)).1 = false /\ ~ valid_token f
  | OutOfFuel =>
    clean (source_stream f) ->
    Forall (fun t => token_type t <> t_constant) (heap f) ->
    fuel <= room (source_stream f) + 1
  end.
Proof.
  intros Hf. destruct fuel as [|fuel]; [intros _ _; lia|].
  rewrite outer_loop_S. destruct (eofbit (source_stream f)) eqn:He.
  { split; [|apply sound_push_eof_tidy]. cbn. rewrite length_app. simpl. lia. }
  assert (Hroom : room (source_stream f) = S (length (chars (source_stream f))))
    by (unfold room; now rewrite He).
  pose proof (get_later (source_stream f)) as [Hg1 Hg2].
  destruct (get (source_stream f)) as [c s1]. cbn [fst snd] in *.
  match goal with |- context [inner_loop fuel ?g] =>
    assert (Hg : sound g) by exact Hf;
    pose proof (inner_loop_facts fuel g Hg) as Hi;
    destruct (inner_loop fuel g) as [[f1|f1]| | |]
  end; cbn [bind source_stream heap token_list token current_indent
            input_char] in *.
  - destruct Hi as (Hs1 & He1 & Hl1 & Ht1).
    destruct fuel as [|fuel]; [cbn; intros _ _; lia|].
    rewrite outer_loop_S, He1. split.
    + cbn. rewrite length_app. simpl. unfold room in Hl1 at 1.
      rewrite He1 in Hl1. lia.
    + intros Ht. apply sound_push_eof_tidy, Ht1. exact Ht.
  - destruct Hi as (Hs1 & Hl1 & Ht1 & He1 & Hun & Hn).
    repeat (split; [assumption|]). exact Hn.
  - exact I.
  - destruct Hi as (He1 & Hun & Hn). repeat (split; [assumption|]). exact Hn.
  - intros Hc Hq.
    assert (Hfuel : fuel <= room s1 + 1).
    { apply Hi. destruct (Hg2 Hc) as [Hc1 Hc2].
      split; [exact Hc2|]. split; [exact Hc1 | exact Hq]. }
    lia.
Qed.

End Advance.

(** The facts of [outer_loop_facts] on a parser just constructed. *)
Lemma parse_tokens_facts fuel garbage contents :
  match parse_tokens fuel garbage (open contents) with
  | Ret (true, f') =>
    (length (token_list f') <= length contents + 1)%nat /\ tidy f'
  | Ret (false, f') =>
    token_list f' = [] /\ tidy f' /\
    match contents with
    | [] => False
    | c :: _ => classified (chr c) = false
    end
  | Exit _ => True
  | Undef =>
    match contents with
    | [] => False
    | c :: _ => classified (chr c) = false
    end
  | OutOfFuel => "039"%char ∈ contents \/ (fuel <= length contents + 2)%nat
  end.
Proof.
  unfold parse_tokens.
  assert (Hs : sound (mkFrame (open contents) [] [] garbage 0 0))
    by (split; constructor).
  assert (Ht : tidy (mkFrame (open contents) [] [] garbage 0 0))
    by (split; [constructor | cbn; lia]).
  pose proof (outer_loop_facts fuel _ Hs) as H.
  destruct (outer_loop fuel _) as [[[|] f']| | |];
    cbn [source_stream token_list heap open room eofbit chars length] in H.
  - destruct H as [H1 H2]. split; [lia | auto].
  - destruct H as (_ & H1 & H2 & H3 & H4 & _).
    split; [exact H1|]. split; [auto|].
    destruct contents; [discriminate H3 | exact H4].
  - exact I.
  - destruct H as (H3 & H4 & _).
    destruct contents; [discriminate H3 | exact H4].
  - destruct (decide ("039"%char ∈ contents)) as [Hin|Hin]; [now left|].
    right. specialize (H Hin ltac:(constructor)). lia.
Qed.

(** X8. The scan of a file that holds no single quote always comes to an
    end: with fuel for three more turns than the file has characters,
    [parse_tokens] has returned [true], or the program has left through
    [exit(0)] with a message.  The one exception is the file whose first
    character has no class: there [parse_tokens] returns [false] with an
    empty list, or calls through the uninitialised [token].  (Only the loop
    of the char literal goes on past the end of the input.) *)
Theorem scan_without_single_quote_ends fuel garbage contents :
  "039"%char ∉ contents -> (length contents + 3 <= fuel)%nat ->
  (exists ts, scan fuel garbage contents = Ret (true, ts)) \/
  (exists msg, scan fuel garbage contents = Exit msg) \/
  ((exists c rest, contents = c :: rest /\ classified (chr c) = false) /\
   (scan fuel garbage contents = Ret (false, []) \/
    scan fuel garbage contents = Undef)).
Proof.
  intros Hq Hf. unfold scan.
  pose proof (parse_tokens_facts fuel garbage contents) as H.
  pose proof (outer_loop_sound fuel (mkFrame (open contents) [] [] garbage 0 0))
    as Hs.
  unfold parse_tokens in *.
  destruct (outer_loop fuel _) as [[[|] f]|msg| |]; cbn [bind].
  - left.
    destruct (Hs true f eq_refl ltac:(split; constructor))
      as (f0 & Hf0 & ->).
    destruct (token_stream_push_eof f0 Hf0) as (front & -> & _).
    eexists. reflexivity.
  - right. right. destruct H as (Hl & _ & Hc).
    split.
    + destruct contents as [|c rest]; [contradiction|]. now exists c, rest.
    + left. unfold token_stream. rewrite Hl. reflexivity.
  - right. left. now exists msg.
  - right. right. split.
    + destruct contents as [|c rest]; [contradiction|]. now exists c, rest.
    + now right.
  - destruct H as [H|H]; [contradiction | lia].
Qed.

(** The file [x = 1], for [scan_without_single_quote_ends]. *)
Lemma scan_without_single_quote_ends_witness :
  (exists ts, scan 8 None (text "x = 1") = Ret (true, ts)) \/
  (exists msg, scan 8 None (text "x = 1") = Exit msg) \/
  ((exists c rest, text "x = 1" = c :: rest /\ classified (chr c) = false) /\
   (scan 8 None (text "x = 1") = Ret (false, []) \/
    scan 8 None (text "x = 1") = Undef)).
Proof.
  apply (scan_without_single_quote_ends 8 None (text "x = 1")).
  - simpl. repeat (apply not_elem_of_cons; split; [discriminate|]).
    apply not_elem_of_nil.
  - simpl. lia.
Defined.

(** X9. A token stream never holds more tokens than the file has
    characters, plus one for the EOF token: every token of the loop takes
    at least one character of its own. *)
Theorem token_count_bound fuel garbage contents ok ts :
  scan fuel garbage contents = Ret (ok, ts) ->
  (length ts <= length contents + 1)%nat.
Proof.
  unfold scan. intros H.
  pose proof (parse_tokens_facts fuel garbage contents) as Hp.
  destruct (parse_tokens fuel garbage (open contents)) as [[ok' f]| | |];
    try discriminate.
  cbn [bind] in H. unfold token_stream in H.
  destruct (mapM _ (token_list f)) as [ts'|] eqn:Hm; [|discriminate].
  inversion H; subst. apply length_mapM in Hm. rewrite <- Hm.
  destruct ok.
  - apply Hp.
  - destruct Hp as [Hp _]. rewrite Hp. simpl. lia.
Qed.

(** The file [x = 1] and its six tokens, for [token_count_bound]. *)
Lemma token_count_bound_witness :
  (length [symbol_token "x"; whitespace_token; punctuation_token "=";
           whitespace_token; integer_token "1"; eof_token]
   <= length (text "x = 1") + 1)%nat.
Proof.
  apply (token_count_bound 8 None (text "x = 1") true). vm_compute.
  reflexivity.
Defined.



(** The tokens of a stream are well formed. *)
Lemma scan_tokens_ok fuel garbage contents ok ts :
  scan fuel garbage contents = Ret (ok, ts) -> Forall token_ok ts.
Proof.
  unfold scan. intros H.
  pose proof (parse_tokens_facts fuel garbage contents) as Hp.
  destruct (parse_tokens fuel garbage (open contents)) as [[ok' f]| | |];
    try discriminate.
  cbn [bind] in H. unfold token_stream in H.
  destruct (mapM _ (token_list f)) as [ts'|] eqn:Hm; [|discriminate].
  inversion H; subst.
  assert (Ht : tidy f) by (destruct ok; apply Hp).
  apply mapM_Some_1 in Hm. destruct Ht as [Ht _]. clear Hp H.
  revert Hm. generalize (token_list f). intros l Hm.
  induction Hm as [|p t l k Hp' _ IH]; constructor; [|exact IH].
  exact (Forall_lookup_1 _ _ _ _ Ht Hp').
Qed.

(** X11. In every token stream a symbol, an integer and a punctuation
    token hold at least one character; string and char literals may be
    empty. *)
Theorem lexemes_are_not_empty fuel garbage contents ok ts :
  scan fuel garbage contents = Ret (ok, ts) -> Forall has_lexeme ts.
Proof.
  intros H. eapply Forall_impl; [exact (scan_tokens_ok _ _ _ _ _ H)|].
  intros t. destruct t; cbn; auto.
Qed.

(** The file [x = 1], for [lexemes_are_not_empty]. *)
Lemma lexemes_are_not_empty_witness :
  Forall has_lexeme
    [symbol_token "x"; whitespace_token; punctuation_token "=";
     whitespace_token; integer_token "1"; eof_token].
Proof.
  apply (lexemes_are_not_empty 8 None (text "x = 1") true).
  vm_compute. reflexivity.
Defined.

(** ** The count of white characters stays below the length of the file *)

Section Levels.

(** The loop adds one to [spaces] for each character it extracts. *)
Lemma indent_loop_bound fuel : forall g spaces s n s',
  indent_loop fuel g spaces s = Ret (n, s') ->
  n <= spaces + Z.of_nat (Nat.pred (room s)).
Proof.
  induction fuel as [|fuel IH]; intros g spaces [l e] n s' H; [discriminate|].
  cbn [indent_loop eofbit] in H.
  destruct (negb (g =? LF)); cbn [andb] in H; [|inversion H; lia].
  destruct e; cbn [negb] in H; [inversion H; lia|].
  destruct l as [|a r]; cbn [peek get eofbit chars] in H.
  - change (isspace EOF) with false in H. inversion H; lia.
  - destruct (isspace (chr a)); [|inversion H; lia].
    apply IH in H. cbn [room eofbit chars length Nat.pred] in *. lia.
Qed.

Lemma measure_indent_bound fuel s n s' :
  measure_indent fuel s = Ret (n, s') ->
  n <= Z.of_nat (Nat.pred (room s)).
Proof.
  destruct s as [l e]. unfold measure_indent. intros H.
  destruct e; [|destruct l as [|a r]]; cbn [peek get eofbit chars] in H.
  - change (isspace EOF) with false in H. inversion H; lia.
  - change (isspace EOF) with false in H. inversion H; lia.
  - destruct (isspace (chr a)); [|inversion H; lia].
    apply indent_loop_bound in H.
    cbn [room eofbit chars length Nat.pred] in *. lia.
Qed.

Variable size : nat.

Lemma below_new t f :
  level_le (Z.of_nat size) t -> below size f -> below size (new t f).
Proof.
  intros Ht (Hh & Hc & Hr). split; [|split]; cbn; try assumption.
  apply Forall_app. split; [assumption|]. now repeat constructor.
Qed.

Lemma classify_below fuel f f' :
  classify fuel f = Ret f' -> below size f -> below size f'.
Proof.
  unfold classify. intros H Hb. pose proof Hb as (Hh & Hc & Hr).
  repeat match type of H with
         | (if ?b then _ else _) = _ =>
           let E := fresh "E" in destruct b eqn:E
         end;
    try (inversion H; subst; first [now apply below_new | exact Hb]).
  - pose proof (peek_later (source_stream f)) as [Hp _].
    destruct (peek (source_stream f)) as [pc s1]. cbn [snd] in Hp.
    pose proof (comment_loop_keeps fuel pc s1) as Hk.
    destruct (comment_loop fuel pc s1) as [s2| | |]; try discriminate.
    cbn [bind keeps] in *. inversion H; subst.
    apply below_new; [exact I|]. split; [|split]; cbn; try assumption. lia.
  - pose proof (measure_indent_keeps fuel (source_stream f)) as Hk.
    pose proof (measure_indent_bound fuel (source_stream f)) as Hm.
    destruct (measure_indent fuel (source_stream f)) as [[n s1]| | |];
      try discriminate.
    cbn [bind] in H. destruct Hk as (Hk & _ & _).
    specialize (Hm n s1 eq_refl).
    assert (Hn : n <= Z.of_nat size) by lia.
    cbn [current_indent set_stream] in H.
    destruct (current_indent f <? n);
      [|destruct (n <? current_indent f)];
      inversion H; subst; apply below_new; try exact Hn; try exact I;
      (split; [|split]); cbn; try assumption; lia.
Qed.

Lemma parse_token_below fuel t s c t' c' s' :
  parse_token fuel t s c = Ret (t', c', s') ->
  (room s' <= room s)%nat /\
  (level_le (Z.of_nat size) t -> level_le (Z.of_nat size) t').
Proof.
  intros H. split.
  - assert (Hcase : token_type t = t_eof \/ token_type t <> t_eof)
      by (destruct t; cbn; first [now left | right; discriminate]).
    destruct Hcase as [E|E].
    + destruct t; try discriminate E. cbn in H. inversion H; subst. lia.
    + pose proof (parse_token_advances fuel t s c E) as Ha.
      rewrite H in Ha. cbn in Ha. lia.
  - pose proof (parse_token_type _ _ _ _ _ _ _ H) as Ht.
    destruct t; destruct t'; try discriminate Ht; try (intros _; exact I);
      cbn [parse_token] in H; destruct (get s); inversion H; subst; auto.
Qed.

Lemma iteration_below fuel f r :
  iteration fuel f = Ret r -> below size f ->
  match r with inl f' | inr f' => below size f' end.
Proof.
  unfold iteration. intros H Hb.
  destruct (classify fuel f) as [f1| | |] eqn:Hc; try discriminate.
  cbn [bind] in H. apply classify_below in Hc; [|exact Hb].
  destruct (token f1) as [p|]; [|inversion H; subst; exact Hc].
  destruct (heap f1 !! p) as [obj|] eqn:Ho; [|discriminate].
  destruct (parse_token fuel obj (source_stream f1) (input_char f1))
    as [[[obj' c] s']| | |] eqn:Hp; try discriminate.
  cbn [bind] in H. inversion H; subst.
  destruct Hc as (Hh & Hci & Hr).
  destruct (parse_token_below _ _ _ _ _ _ _ Hp) as [Hr' Hl].
  split; [|split]; cbn; try assumption; [|lia].
  apply Forall_insert; [exact Hh|]. apply Hl.
  exact (Forall_lookup_1 _ _ _ _ Hh Ho).
Qed.

Lemma inner_loop_below fuel : forall f r,
  inner_loop fuel f = Ret r -> below size f ->
  match r with inl f' | inr f' => below size f' end.
Proof.
  induction fuel as [|fuel IH]; intros f r H Hb; [discriminate|].
  rewrite inner_loop_S in H.
  destruct (eofbit (source_stream f)); [inversion H; subst; exact Hb|].
  destruct (iteration fuel f) as [[f1|f1]| | |] eqn:Hi; try discriminate;
    cbn [bind] in H; apply iteration_below in Hi; try exact Hb.
  - exact (IH f1 r H Hi).
  - inversion H; subst. exact Hi.
Qed.

Lemma outer_loop_below fuel : forall f ok f',
  outer_loop fuel f = Ret (ok, f') -> below size f -> below size f'.
Proof.
  induction fuel as [|fuel IH]; intros f ok f' H Hb; [discriminate|].
  rewrite outer_loop_S in H. pose proof Hb as (Hh & Hc & Hr).
  destruct (eofbit (source_stream f)).
  { inversion H; subst. split; [|split]; cbn; try assumption.
    apply Forall_app. split; [assumption|]. now repeat constructor. }
  pose proof (get_later (source_stream f)) as [Hg _].
  destruct (get (source_stream f)) as [c s1]. cbn [snd] in Hg.
  match type of H with bind (inner_loop _ ?g) _ = _ =>
    assert (Hgb : below size g) by (split; [|split]; cbn; try assumption; lia);
    destruct (inner_loop fuel g) as [[f1|f1]| | |] eqn:Hi; try discriminate
  end; cbn [bind] in H; apply inner_loop_below in Hi; try exact Hgb.
  - exact (IH f1 ok f' H Hi).
  - inversion H; subst. exact Hi.
Qed.

End Levels.

(** No level in a token stream exceeds the length of the file. *)
Lemma scan_levels_below fuel garbage contents ok ts :
  scan fuel garbage contents = Ret (ok, ts) ->
  Forall (level_le (Z.of_nat (length contents))) ts.
Proof.
  unfold scan, parse_tokens. intros H.
  destruct (outer_loop fuel _) as [[ok' f]| | |] eqn:Ho; try discriminate.
  apply (outer_loop_below (length contents)) in Ho;
    [|split; [constructor | split; cbn; lia]].
  cbn [bind] in H. unfold token_stream in H.
  destruct (mapM _ (token_list f)) as [ts'|] eqn:Hm; [|discriminate].
  inversion H; subst. apply mapM_Some_1 in Hm. destruct Ho as [Hh _].
  clear H. revert Hm. generalize (token_list f). intros l Hm.
  induction Hm as [|p t l k Hp' _ IH]; constructor; [|exact IH].
  exact (Forall_lookup_1 _ _ _ _ Hh Hp').
Qed.

(** X12. In the token stream of a file of fewer than 2^31 characters an
    Indent token carries a level from 1 to the length of the file and a
    Dedent token a level from 0 to the length of the file.  The count of
    white characters after a line feed never exceeds the number of
    characters extracted ([measure_indent_bound]), so in such a file the
    [int]s [spaces] and [current_indent] hold the numbers counted here and
    never reach 2^31. *)
Theorem indent_levels_are_in_range fuel garbage contents ok ts :
  Z.of_nat (length contents) < 2 ^ 31 ->
  scan fuel garbage contents = Ret (ok, ts) ->
  Forall (level_within (Z.of_nat (length contents))) ts /\
  Forall (level_within (2 ^ 31 - 1)) ts.
Proof.
  intros Hsize H.
  pose proof (scan_tokens_ok _ _ _ _ _ H) as Hok.
  pose proof (scan_levels_below _ _ _ _ _ H) as Hle.
  assert (Hw : Forall (level_within (Z.of_nat (length contents))) ts).
  { clear H. induction Hok as [|t l Ht _ IH]; [constructor|].
    inversion Hle; subst. constructor; [|now apply IH].
    destruct t; cbn in *; try exact I; lia. }
  split; [exact Hw|].
  eapply Forall_impl; [exact Hw|].
  intros t. destruct t; cbn; try exact (fun x => x); lia.
Qed.

(** A file with an indented line and a line back at the margin, for
    [indent_levels_are_in_range]. *)
Lemma indent_levels_are_in_range_witness :
  Forall (level_within 8)
    [symbol_token "a"; indent_token 2; symbol_token "b"; dedent_token 0;
     symbol_token "c"; eof_token] /\
  Forall (level_within (2 ^ 31 - 1))
    [symbol_token "a"; indent_token 2; symbol_token "b"; dedent_token 0;
     symbol_token "c"; eof_token].
Proof.
  apply (indent_levels_are_in_range 8 None
           (text "a" ++ "010"%char :: text "   b" ++ "010"%char :: text "c")
           true).
  - vm_compute. reflexivity.
  - vm_compute. reflexivity.
Defined.

(** * Fatal errors, the listing and [main] *)

(** ** The only fatal errors are those of the string literal *)

Section Exits.

Lemma literal_error_bind {A B : Type} (m : res A) (k : A -> res B) :
  literal_error m -> (forall a, literal_error (k a)) ->
  literal_error (bind m k).
Proof. destruct m; cbn; auto. Qed.

Ltac exits_step IH :=
  repeat first
    [ exact I
    | solve [cbn; auto]
    | apply IH
    | match goal with
      | |- context [get ?s] => destruct (get s) as [? ?]
      | |- context [peek ?s] => destruct (peek s) as [? ?]
      | |- context [if ?b then _ else _] => destruct b
      end ].

Lemma symbol_loop_exits fuel : forall s str,
  literal_error (symbol.loop fuel s str).
Proof.
  induction fuel as [|fuel IH]; intros; cbn [symbol.loop]; exits_step IH.
Qed.

Lemma hex_loop_exits fuel : forall s str,
  literal_error (integer.hex_loop fuel s str).
Proof.
  induction fuel as [|fuel IH]; intros; cbn [integer.hex_loop]; exits_step IH.
Qed.

Lemma dec_loop_exits fuel : forall s str,
  literal_error (integer.dec_loop fuel s str).
Proof.
  induction fuel as [|fuel IH]; intros; cbn [integer.dec_loop]; exits_step IH.
Qed.

Lemma literal_loop_exits fuel : forall s str,
  literal_error (literal.loop fuel s str).
Proof.
  induction fuel as [|fuel IH]; intros; cbn [literal.loop]; exits_step IH.
Qed.

Lemma constant_loop_exits fuel : forall s str,
  literal_error (constant.loop fuel s str).
Proof.
  induction fuel as [|fuel IH]; intros; cbn [constant.loop]; exits_step IH.
Qed.

Lemma whitespace_loop_exits fuel : forall s,
  literal_error (whitespace.loop fuel s).
Proof.
  induction fuel as [|fuel IH]; intros; cbn [whitespace.loop]; exits_step IH.
Qed.

Lemma comment_loop_exits fuel : forall c s,
  literal_error (comment_loop fuel c s).
Proof.
  induction fuel as [|fuel IH]; intros; cbn [comment_loop]; exits_step IH.
Qed.

Lemma indent_loop_exits fuel : forall g n s,
  literal_error (indent_loop fuel g n s).
Proof.
  induction fuel as [|fuel IH]; intros; cbn [indent_loop]; exits_step IH.
Qed.

Lemma parse_token_exits fuel t s c : literal_error (parse_token fuel t s c).
Proof.
  destruct t; cbn [parse_token];
    try (apply literal_error_bind; [|intros [[? ?] ?]; exact I]);
    try (apply literal_error_bind; [|intros [? ?]; exact I]).
  - destruct (get s); exact I.
  - apply symbol_loop_exits.
  - unfold integer.parse_token.
    exits_step dec_loop_exits; apply hex_loop_exits.
  - apply literal_loop_exits.
  - apply constant_loop_exits.
  - destruct (punctuation.parse_token s c) as [[? ?] ?]; exact I.
  - apply whitespace_loop_exits.
  - destruct (get s); exact I.
  - destruct (get s); exact I.
  - destruct (get s); exact I.
  - exact I.
Qed.

Lemma classify_exits fuel f : literal_error (classify fuel f).
Proof.
  unfold classify.
  repeat match goal with
  | |- literal_error (if ?b then _ else _) => destruct b
  | |- literal_error (Ret _) => exact I
  end.
  - destruct (peek (source_stream f)) as [c s].
    apply literal_error_bind; [apply comment_loop_exits | intros; exact I].
  - apply literal_error_bind.
    + unfold measure_indent. exits_step indent_loop_exits.
    + intros [n s]. exits_step I.
Qed.

Lemma iteration_exits fuel f : literal_error (iteration fuel f).
Proof.
  unfold iteration. apply literal_error_bind; [apply classify_exits|].
  intros f1. destruct (token f1) as [p|]; [|exact I].
  destruct (heap f1 !! p) as [obj|]; [|exact I].
  apply literal_error_bind; [apply parse_token_exits|].
  intros [[? ?] ?]. exact I.
Qed.

Lemma inner_loop_exits fuel : forall f, literal_error (inner_loop fuel f).
Proof.
  induction fuel as [|fuel IH]; intros f; [exact I|].
  cbn [inner_loop]. destruct (eofbit (source_stream f)); [exact I|].
  apply literal_error_bind; [apply iteration_exits|].
  intros [f1|f1]; [apply IH | exact I].
Qed.

Lemma outer_loop_exits fuel : forall f, literal_error (outer_loop fuel f).
Proof.
  induction fuel as [|fuel IH]; intros f; [exact I|].
  cbn [outer_loop]. destruct (eofbit (source_stream f)); [exact I|].
  destruct (get (source_stream f)) as [c s].
  apply literal_error_bind; [apply inner_loop_exits|].
  intros [f1|f1]; [apply IH | exact I].
Qed.

End Exits.

(** X13. A run that leaves through [exit(0)] has printed one of the two
    messages of the string literal: no other scanner, and no part of the
    driver, ends the program. *)
Theorem only_a_literal_is_fatal fuel garbage contents msg :
  scan fuel garbage contents = Exit msg -> msg = msg_EOL \/ msg = msg_EOF.
Proof.
  unfold scan, parse_tokens. intros H.
  pose proof (outer_loop_exits fuel (mkFrame (open contents) [] [] garbage 0 0))
    as He.
  destruct (outer_loop fuel _) as [[ok f]|m| |]; cbn [bind] in H.
  - destruct (token_stream f); discriminate.
  - inversion H; subst. exact He.
  - discriminate.
  - discriminate.
Qed.

(** The file that opens a literal and ends, for [only_a_literal_is_fatal]. *)
Lemma only_a_literal_is_fatal_witness :
  scan 8 None ("034"%char :: text "abc") = Exit msg_EOF /\
  (msg_EOF = msg_EOL \/ msg_EOF = msg_EOF).
Proof.
  split; [vm_compute; reflexivity|].
  apply (only_a_literal_is_fatal 8 None ("034"%char :: text "abc") msg_EOF).
  vm_compute. reflexivity.
Defined.

(** X14. A turn of the driver that starts on a double quote whose literal
    is not closed in what is left of the file ends the program with one of
    the two messages, whatever has been scanned before. *)
Theorem open_literal_is_fatal fuel f rest :
  input_char f = dquote -> source_stream f = mkStream rest false ->
  closes "034" false rest = false -> (length rest < fuel)%nat ->
  exists msg, iteration fuel f = Exit msg /\
              (msg = msg_EOL \/ msg = msg_EOF).
Proof.
  intros Hc Hs Hr Hf. unfold iteration.
  assert (E : classify fuel f = Ret (new (literal_token EmptyString) f))
    by (unfold classify; rewrite Hc; reflexivity).
  rewrite E. cbn [bind new token heap source_stream input_char].
  rewrite lookup_app_r by lia. rewrite Nat.sub_diag.
  cbn [lookup list_lookup parse_token]. unfold literal.parse_token.
  rewrite Hs.
  pose proof (literal_loop_total fuel rest false EmptyString Hf) as Ht.
  pose proof (literal_loop_exits fuel (mkStream rest false) EmptyString) as He.
  destruct (literal.loop fuel _ _) as [r|msg| |]; try contradiction.
  - destruct Ht as [_ Ht]. congruence.
  - exists msg. split; [reflexivity | exact He].
Qed.

(** The turn on the quote of a literal that the file does not close, for
    [open_literal_is_fatal]. *)
Lemma open_literal_is_fatal_witness :
  exists msg,
    iteration 4 (mkFrame (mkStream (text "abc") false) [symbol_token "x"]
                   [0%nat] (Some 0%nat) 0 dquote) = Exit msg /\
    (msg = msg_EOL \/ msg = msg_EOF).
Proof.
  apply (open_literal_is_fatal 4 _ (text "abc")).
  - reflexivity.
  - reflexivity.
  - reflexivity.
  - simpl. lia.
Defined.

(** ** The listing *)

Section Listing.

Lemma append_inv_head p s s' : p +:+ s = p +:+ s' -> s = s'.
Proof.
  induction p as [|a p IH]; intros H; [exact H|].
  change (String a (p +:+ s) = String a (p +:+ s')) in H.
  injection H as H. auto.
Qed.

Lemma list_ascii_of_append s t :
  list_ascii_of_string (s +:+ t) =
  (list_ascii_of_string s ++ list_ascii_of_string t)%list.
Proof.
  induction s as [|a s IH]; [reflexivity|].
  change (a :: list_ascii_of_string (s +:+ t) =
          a :: (list_ascii_of_string s ++ list_ascii_of_string t)%list).
  now f_equal.
Qed.

Lemma append_inv_tail s s' t : s +:+ t = s' +:+ t -> s = s'.
Proof.
  intros H. apply (f_equal list_ascii_of_string) in H.
  rewrite !list_ascii_of_append in H. apply app_inv_tail in H.
  rewrite <- (string_of_list_ascii_of_string s),
          <- (string_of_list_ascii_of_string s'). now f_equal.
Qed.

Lemma append_assoc s t u : (s +:+ t) +:+ u = s +:+ (t +:+ u).
Proof.
  induction s as [|a s IH]; [reflexivity|].
  change (String a ((s +:+ t) +:+ u) = String a (s +:+ (t +:+ u))).
  now f_equal.
Qed.

Lemma append_empty s : s +:+ EmptyString = s.
Proof.
  induction s as [|a s IH]; [reflexivity|].
  change (String a (s +:+ EmptyString) = String a s). now f_equal.
Qed.

(** Two integers with the same numeral are equal. *)
Lemma print_int_inj n m : print_int n = print_int m -> n = m.
Proof.
  unfold print_int. intros H.
  assert (Hd : forall z, NilZero.int_of_string
                           (NilZero.string_of_int (Z.to_int z)) =
                         Some (Z.to_int z)).
  { intros z. apply NilZero.isi; destruct z; cbn; try discriminate;
      intros E; injection E as E;
      exact (DecimalPos.Unsigned.to_uint_nonnil _ E). }
  apply (f_equal NilZero.int_of_string) in H. rewrite !Hd in H.
  injection H as H. apply (f_equal Z.of_int) in H.
  now rewrite !DecimalZ.of_to in H.
Qed.

Lemma listing_app ts us : listing (ts ++ us) = listing ts +:+ listing us.
Proof.
  induction ts as [|t ts IH]; [reflexivity|].
  cbn [app listing foldr]. fold (listing (ts ++ us)). fold (listing ts).
  rewrite IH. symmetry. apply append_assoc.
Qed.

(** [print_tokens] writes the listing of the tokens the list points to. *)
Lemma print_loop_listing objects : forall iterator cout ts,
  mapM (fun p => objects !! p) iterator = Some ts ->
  print_loop objects iterator cout = Ret (cout +:+ listing ts).
Proof.
  induction iterator as [|p l IH]; intros cout ts H.
  - inversion H; subst. cbn [print_loop listing foldr].
    now rewrite append_empty.
  - apply mapM_Some_1 in H. inversion H as [|? obj ? k Hp Hk]; subst.
    cbn [print_loop]. rewrite Hp.
    rewrite (IH _ k) by (now apply mapM_Some_2).
    cbn [listing foldr]. fold (listing k). now rewrite append_assoc.
Qed.

End Listing.

(** X15. The line a token prints tells the token: two tokens that print
    the same line have the same class and the same data. *)
Theorem print_token_tells_the_token t t' :
  print_token t = print_token t' -> t = t'.
Proof.
  intros H.
  destruct t, t';
    try (cbv [print_token quote_mark endl String.append] in H;
         discriminate H);
    try reflexivity;
    unfold print_token in H;
    repeat (apply append_inv_head in H);
    apply append_inv_tail in H;
    try apply print_int_inj in H; now subst.
Qed.

(** Two ways of writing the same Indent token, for
    [print_token_tells_the_token]. *)
Lemma print_token_tells_the_token_witness :
  indent_token (1 + 1) = indent_token 2.
Proof.
  apply (print_token_tells_the_token (indent_token (1 + 1)) (indent_token 2)).
  reflexivity.
Defined.

(** X16. [main] on a file that can be opened writes the listing of the
    tokens of the scan and returns 0, whether [parse_tokens] returned
    [true] or [false]. *)
Theorem main_prints_the_scanned_tokens fuel garbage argv files contents ok ts :
  (2 <= length argv)%nat ->
  files (List.last argv EmptyString) = Some contents ->
  scan fuel garbage contents = Ret (ok, ts) ->
  main fuel garbage argv files = Ret (listing ts, 0).
Proof.
  intros Ha Hfile H. unfold main.
  destruct (Nat.ltb_spec (length argv) 2) as [Hlt|_]; [lia|].
  rewrite Hfile. unfold scan in H.
  destruct (parse_tokens fuel garbage (open contents)) as [[ok' f]| | |];
    try discriminate.
  cbn [bind] in *. unfold token_stream in H.
  destruct (mapM _ (token_list f)) as [ts'|] eqn:Hm; [|discriminate].
  inversion H; subst. unfold print_tokens.
  rewrite (print_loop_listing _ _ _ _ Hm). reflexivity.
Qed.

(** The file [x = 1] given as the only argument, for
    [main_prints_the_scanned_tokens]. *)
Lemma main_prints_the_scanned_tokens_witness :
  main 8 None ["MyPython"; "a.py"]%string
    (fun name => if String.eqb name "a.py" then Some (text "x = 1") else None) =
  Ret (listing [symbol_token "x"; whitespace_token; punctuation_token "=";
                whitespace_token; integer_token "1"; eof_token], 0).
Proof.
  apply (main_prints_the_scanned_tokens 8 None _ _ (text "x = 1") true).
  - simpl. lia.
  - reflexivity.
  - vm_compute. reflexivity.
Defined.

(** X17. On a file that can be opened, holds no single quote and is empty
    or starts with a character that has a class, the program ends: either
    it has exited on a string literal left open, or [main] returns 0 after
    writing the listing of the tokens, whose last line is that of the EOF
    token. *)
Theorem main_ends_with_the_eof_line fuel garbage argv files contents :
  (2 <= length argv)%nat ->
  files (List.last argv EmptyString) = Some contents ->
  match contents with
  | [] => True
  | c :: _ => classified (chr c) = true
  end ->
  "039"%char ∉ contents -> (length contents + 3 <= fuel)%nat ->
  (exists msg, main fuel garbage argv files = Exit msg /\
               (msg = msg_EOL \/ msg = msg_EOF)) \/
  (exists ts, scan fuel garbage contents = Ret (true, ts ++ [eof_token]) /\
              main fuel garbage argv files =
              Ret (listing ts +:+ print_token eof_token, 0)).
Proof.
  intros Ha Hfile Hc Hq Hf. unfold main, scan.
  destruct (Nat.ltb_spec (length argv) 2) as [Hlt|_]; [lia|].
  rewrite Hfile.
  pose proof (parse_tokens_facts fuel garbage contents) as Hp.
  pose proof (outer_loop_sound fuel (mkFrame (open contents) [] [] garbage 0 0))
    as Hs.
  pose proof (outer_loop_exits fuel (mkFrame (open contents) [] [] garbage 0 0))
    as He.
  unfold parse_tokens in *.
  destruct (outer_loop fuel _) as [[[|] f]|msg| |]; cbn [bind].
  - right.
    destruct (Hs true f eq_refl ltac:(split; constructor))
      as (f0 & Hf0 & ->).
    destruct (token_stream_push_eof f0 Hf0) as (front & Hm & _).
    exists front. rewrite Hm. split; [reflexivity|].
    unfold print_tokens. unfold token_stream in Hm.
    rewrite (print_loop_listing _ _ _ _ Hm). cbn [bind].
    rewrite listing_app. cbn [listing foldr].
    now rewrite append_empty.
  - destruct Hp as (_ & _ & Hp). destruct contents; [contradiction|].
    congruence.
  - left. exists msg. split; [reflexivity | exact He].
  - destruct contents; [contradiction|]. congruence.
  - destruct Hp as [Hp|Hp]; [contradiction | lia].
Qed.

(** The file [x = 1] given as the only argument, for
    [main_ends_with_the_eof_line]. *)
Lemma main_ends_with_the_eof_line_witness :
  (exists msg,
     main 8 None ["MyPython"; "a.py"]%string
       (fun name => if String.eqb name "a.py" then Some (text "x = 1")
                    else None) = Exit msg /\
     (msg = msg_EOL \/ msg = msg_EOF)) \/
  (exists ts,
     scan 8 None (text "x = 1") = Ret (true, ts ++ [eof_token]) /\
     main 8 None ["MyPython"; "a.py"]%string
       (fun name => if String.eqb name "a.py" then Some (text "x = 1")
                    else None) =
     Ret (listing ts +:+ print_token eof_token, 0)).
Proof.
  apply (main_ends_with_the_eof_line 8 None _ _ (text "x = 1")).
  - simpl. lia.
  - reflexivity.
  - reflexivity.
  - simpl. repeat (apply not_elem_of_cons; split; [discriminate|]).
    apply not_elem_of_nil.
  - simpl. lia.
Defined.
